(** * The versioned document store of the local Reshuffle database

    A shallow embedding of the [Handler] class of the local database
    (version algebra, the commit primitive [put], [create], [remove],
    [setIfVersion], [getWithVersion], [poll] and [find]) together with the
    query evaluator ([match], [wrappedMatch], [buildComparator]).

    JavaScript numbers are modelled by [Z] (no NaN, no rounding); every
    operation that runs under the write mutex is one atomic state
    transformer; the JSON codec of stored envelopes is the identity on the
    decoded envelope. *)

From Stdlib Require Import ZArith String Ascii List Bool Lia.
From stdpp Require Import base gmap strings list.
From stdpp Require Import sorting.

Local Open Scope string_scope.
Set Warnings "-register-all".

(** ** JavaScript values *)

Module JS.

(** Runtime values.  Arrays and objects carry the identity of the heap
    object ([ref]): [===] on two composites compares identities, not
    contents.  Identity 0 is that of the objects the handler allocates
    itself (the [root] wrappers and the documents [find] builds); the
    values of clients use the others.  [fields] are the own properties in
    insertion order, their names distinct.  [JBigInt] stands for the
    values that are not JSON-able (the source names bigint). *)
Inductive jsval : Type :=
| JUndefined
| JNull
| JBool (b : bool)
| JNum (n : Z)
| JStr (s : string)
| JBigInt (n : Z)
| JArr (ref : nat) (items : list jsval)
| JObj (ref : nat) (fields : list (string * jsval)).

(** [typeof v] *)
Definition typeof (v : jsval) : string :=
  match v with
  | JUndefined => "undefined"
  | JNull => "object"
  | JBool _ => "boolean"
  | JNum _ => "number"
  | JStr _ => "string"
  | JBigInt _ => "bigint"
  | JArr _ _ => "object"
  | JObj _ _ => "object"
  end.

Definition is_undefined (v : jsval) : bool :=
  match v with JUndefined => true | _ => false end.

Definition is_primitive (v : jsval) : bool :=
  match v with JArr _ _ | JObj _ _ => false | _ => true end.

(** [a === b]: same type and same value for primitives, same object for
    arrays and objects. *)
Definition strict_eq (a b : jsval) : bool :=
  match a, b with
  | JUndefined, JUndefined => true
  | JNull, JNull => true
  | JBool x, JBool y => Bool.eqb x y
  | JNum x, JNum y => (x =? y)%Z
  | JStr x, JStr y => String.eqb x y
  | JBigInt x, JBigInt y => (x =? y)%Z
  | JArr r _, JArr r' _ => Nat.eqb r r'
  | JObj r _, JObj r' _ => Nat.eqb r r'
  | _, _ => false
  end.

(** Own property lookup in a field list. *)
Fixpoint obj_get {A : Type} (k : string) (fields : list (string * A)) : option A :=
  match fields with
  | [] => None
  | (k', v) :: rest => if String.eqb k k' then Some v else obj_get k rest
  end.

(** Structural (deep) equality: identities are ignored, arrays are compared
    element by element, objects field by field whatever the order of the
    fields. *)
Fixpoint struct_eqb (a b : jsval) {struct a} : bool :=
  match a, b with
  | JUndefined, JUndefined => true
  | JNull, JNull => true
  | JBool x, JBool y => Bool.eqb x y
  | JNum x, JNum y => (x =? y)%Z
  | JStr x, JStr y => String.eqb x y
  | JBigInt x, JBigInt y => (x =? y)%Z
  | JArr _ xs, JArr _ ys =>
      (fix items (xs ys : list jsval) {struct xs} : bool :=
         match xs, ys with
         | [], [] => true
         | x :: xs', y :: ys' => struct_eqb x y && items xs' ys'
         | _, _ => false
         end) xs ys
  | JObj _ fs, JObj _ gs =>
      (fix fields (fs : list (string * jsval)) {struct fs} : bool :=
         match fs with
         | [] => true
         | (k, v) :: fs' =>
             match obj_get k gs with
             | Some w => struct_eqb v w
             | None => false
             end && fields fs'
         end) fs
      && forallb (fun kv => match obj_get (fst kv) fs with Some _ => true | None => false end) gs
  | _, _ => false
  end.

Fixpoint distinct (names : list string) : bool :=
  match names with
  | [] => true
  | k :: rest => negb (existsb (String.eqb k) rest) && distinct rest
  end.

(** The values [JSON.parse(JSON.stringify(v))] gives back as they were, up
    to the identity of the objects: no [undefined] (a property that holds
    it is dropped, an array item becomes [null]) and no bigint
    ([JSON.stringify] throws) at any depth. *)
Fixpoint json_value (v : jsval) : bool :=
  match v with
  | JUndefined | JBigInt _ => false
  | JNull | JBool _ | JNum _ | JStr _ => true
  | JArr _ xs => forallb json_value xs
  | JObj _ fs => forallb (fun kv => json_value (snd kv)) fs && distinct (List.map fst fs)
  end.

(** Array index of a property name: the canonical decimal numerals. *)
Definition digit_of (c : ascii) : option nat :=
  let n := nat_of_ascii c in
  if (48 <=? n)%nat && (n <=? 57)%nat then Some (n - 48)%nat else None.

Fixpoint digits_value (s : string) (acc : nat) : option nat :=
  match s with
  | EmptyString => Some acc
  | String c rest =>
      match digit_of c with
      | Some d => digits_value rest (10 * acc + d)%nat
      | None => None
      end
  end.

Definition array_index (s : string) : option nat :=
  match s with
  | EmptyString => None
  | String "0" EmptyString => Some 0%nat
  | String "0" _ => None
  | _ => digits_value s 0%nat
  end.

(** [val[p]] for a property name [p], own properties only (members
    inherited from a prototype are outside the model). *)
Definition get_prop (val : jsval) (p : string) : jsval :=
  match val with
  | JObj _ fs => match obj_get p fs with Some v => v | None => JUndefined end
  | JArr _ xs =>
      if String.eqb p "length" then JNum (Z.of_nat (length xs))
      else match array_index p with
           | Some i => nth i xs JUndefined
           | None => JUndefined
           end
  | JStr s =>
      if String.eqb p "length" then JNum (Z.of_nat (String.length s))
      else match array_index p with
           | Some i => match String.get i s with
                       | Some c => JStr (String c EmptyString)
                       | None => JUndefined
                       end
           | None => JUndefined
           end
  | _ => JUndefined
  end.

(** ramda's [path(paths, obj)]: walk the property names, giving up with
    [undefined] as soon as the value at hand is [null] or [undefined]. *)
Fixpoint path (paths : list string) (val : jsval) : jsval :=
  match paths with
  | [] => val
  | p :: rest =>
      match val with
      | JUndefined | JNull => JUndefined
      | _ => path rest (get_prop val p)
      end
  end.

(** The numeric reading of an operand of [<]: a number, NaN, or a value
    that first needs a conversion the model leaves to the engine (a string
    to parse, an object to turn into a primitive). *)
Inductive numeric : Type :=
| Num (n : Z)
| NaN
| Coerced.

Definition to_numeric (v : jsval) : numeric :=
  match v with
  | JUndefined => NaN
  | JNull => Num 0
  | JBool b => Num (if b then 1 else 0)
  | JNum n => Num n
  | JBigInt n => Num n
  | JStr _ | JArr _ _ | JObj _ _ => Coerced
  end.

Section Relational.

(** The engine's answer where a conversion is involved. *)
Variable coerce_lt : jsval -> jsval -> option bool.

(** The abstract relational comparison behind [a < b]; [None] is the
    undefined outcome (a NaN operand), which every operator turns into
    [false]. *)
Definition js_lt (a b : jsval) : option bool :=
  match a, b with
  | JStr s, JStr t => Some (String.ltb s t)
  | _, _ =>
      match to_numeric a, to_numeric b with
      | NaN, _ | _, NaN => None
      | Num x, Num y => Some (x <? y)%Z
      | _, _ => coerce_lt a b
      end
  end.

Definition answers (expected : bool) (o : option bool) : bool :=
  match o with Some b => Bool.eqb b expected | None => false end.

(** [a < b], [a > b], [a <= b], [a >= b] *)
Definition lt (a b : jsval) : bool := answers true (js_lt a b).
Definition gt (a b : jsval) : bool := answers true (js_lt b a).
Definition lte (a b : jsval) : bool := answers false (js_lt b a).
Definition gte (a b : jsval) : bool := answers false (js_lt a b).

End Relational.

(** [Array.prototype.slice(start, end)] with relative (negative) bounds. *)
Definition slice_bound (len : nat) (i : option Z) (dflt : nat) : nat :=
  match i with
  | None => dflt
  | Some z => if (z <? 0)%Z then Z.to_nat (Z.max (Z.of_nat len + z) 0)
              else Nat.min (Z.to_nat z) len
  end.

Definition slice {A : Type} (start stop : option Z) (l : list A) : list A :=
  let len := length l in
  let from := slice_bound len start 0%nat in
  let to := slice_bound len stop len in
  firstn (to - from) (skipn from l).

End JS.

Import JS.

(** ** Errors and the effect monad *)

Inductive error : Type :=
| TypeError (msg : string)
| ValueError (msg : string)
| WrappedError (msg : string) (debugId : string)
| LevelError (msg : string)
| TimeoutError (msg : string).

(** [err.name] *)
Definition error_name (e : error) : string :=
  match e with
  | TypeError _ => "TypeError"
  | ValueError _ => "ValueError"
  | WrappedError _ _ => "Error"
  | LevelError _ => "Error"
  | TimeoutError _ => "TimeoutError"
  end.

Inductive result (A : Type) : Type :=
| Ok (a : A)
| Err (e : error).

Arguments Ok {A} a.
Arguments Err {A} e.

(** ** Versions *)

Record Version : Type := mkVersion { major : Z; minor : Z }.

(** [Number.isSafeInteger]: the integers a double holds exactly.  The
    source adds doubles; the sum of two integers is the exact integer as
    long as the operands and the sum are safe integers, and is rounded
    beyond them. *)
Definition MAX_SAFE_INTEGER : Z := (2 ^ 53 - 1)%Z.

Definition isSafeInteger (z : Z) : bool :=
  (- MAX_SAFE_INTEGER <=? z)%Z && (z <=? MAX_SAFE_INTEGER)%Z.

(** [incrVersion], exact on safe integers. *)
Definition incrVersion (v : Version) (amount : Z) : Version :=
  {| major := major v; minor := (minor v + amount)%Z |}.

Definition decrVersion (version : Version) (amount : Z) : Version :=
  incrVersion version (- amount)%Z.

Definition isGreaterVersion (a b : Version) : bool :=
  (major a >? major b)%Z || ((major a =? major b)%Z && (minor a >? minor b)%Z).

(** ** Stored documents *)

(** The operations [compare] of fast-json-patch produces. *)
Inductive Operation : Type :=
| OpAdd (path : string) (value : jsval)
| OpRemove (path : string)
| OpReplace (path : string) (value : jsval).

(** The fields an [UpdateOptions] object spreads into a patch (none of
    them named [version] or [ops]). *)
Definition UpdateOptions : Type := list (string * jsval).

Record Patch : Type := mkPatch {
  patch_version : Version;
  ops : list Operation;
  patch_options : UpdateOptions
}.

(** A [StoredDocument] or a [Tombstone]: the tombstone is the envelope
    whose [value] is [undefined] (the key is omitted by the codec). *)
Record StoredDoc : Type := mkStoredDoc {
  version : Version;
  value : jsval;
  patches : list Patch;
  updatedAt : Z
}.

Record VersionedMaybeObject : Type := mkVersioned {
  vm_version : Version;
  vm_value : jsval
}.

Record Context : Type := mkContext { debugId : string }.

Definition KeyedPatches : Type := list (string * list Patch).
Definition KeyedVersions : Type := list (string * Version).

Definition NUM_PATCHES_TO_KEEP : nat := 20.
Definition DEFAULT_READ_BLOCK_TIME_MS : Z := 50000.

Definition allowedTypes : gset string :=
  {[ "object"; "boolean"; "number"; "string" ]}.

Definition checkValue (value : jsval) : result unit :=
  if bool_decide (typeof value ∈ allowedTypes) then Ok tt
  else Err (TypeError ("Non-JSONable value of type " +:+ typeof value +:+ " at top level")).

Definition isLiveValue (maybe : option StoredDoc) : bool :=
  match maybe with
  | None => false
  | Some d => negb (is_undefined (value d))
  end.

Definition versionsMatch (prev : option StoredDoc) (v : Version) : bool :=
  match prev with
  | None => (major v =? 0)%Z && (minor v =? 0)%Z
  | Some p => (major (version p) =? major v)%Z && (minor (version p) =? minor v)%Z
  end.

Definition valueOrUndefined (maybeHasValue : option StoredDoc) : jsval :=
  match maybeHasValue with
  | None => JUndefined
  | Some d => value d
  end.

(** ** The handler *)

(** What an operation of the handler can touch: the LevelDB entries (the
    decoded envelopes), a storage fault that makes every LevelDB call fail
    with that message, the patch events emitted so far (oldest first) and
    the number of clock readings taken. *)
Record World : Type := mkWorld {
  db : gmap string StoredDoc;
  io_fault : option string;
  emitted : list (string * Patch);
  ticks : nat
}.

Definition M (A : Type) : Type := World -> result A * World.

Definition ret {A : Type} (a : A) : M A := fun w => (Ok a, w).

Definition throw {A : Type} (e : error) : M A := fun w => (Err e, w).

Definition bind {A B : Type} (m : M A) (k : A -> M B) : M B :=
  fun w =>
    match m w with
    | (Ok a, w') => k a w'
    | (Err e, w') => (Err e, w')
    end.

Notation "'let*' x ':=' m 'in' k" := (bind m (fun x => k))
  (at level 10, x name, m at level 100, k at level 200).

Definition lift {A : Type} (r : result A) : M A := fun w => (r, w).

Section Handler.

(** The reading the clock gives at its n-th call. *)
Variable clock : nat -> Z.

(** [compare] of fast-json-patch, an external collaborator. *)
Variable compare : jsval -> jsval -> list Operation.

(** Modelled from the spec: [hrnano] of [./utils] is absent; it is a
    high-resolution timestamp, here the next reading of the clock. *)
Definition hrnano : M Z :=
  fun w => (Ok (clock (ticks w)),
            {| db := db w; io_fault := io_fault w; emitted := emitted w; ticks := S (ticks w) |}).

(** [this.db.put(key, JSON.stringify(doc))]; the store keeps the decoded
    envelope, which is the envelope written when its value is a
    [json_value]. *)
Definition db_put (key : string) (doc : StoredDoc) : M unit :=
  fun w =>
    match io_fault w with
    | Some msg => (Err (LevelError msg), w)
    | None => (Ok tt, {| db := <[key := doc]> (db w); io_fault := io_fault w;
                         emitted := emitted w; ticks := ticks w |})
    end.

(** [this.emitter.emit('patch', key, patch)] *)
Definition emit (key : string) (patch : Patch) : M unit :=
  fun w => (Ok tt, {| db := db w; io_fault := io_fault w;
                      emitted := emitted w ++ [(key, patch)]; ticks := ticks w |}).

Definition root (v : jsval) : jsval := JObj 0 [("root", v)].

Definition spread (options : option UpdateOptions) : UpdateOptions :=
  match options with Some o => o | None => [] end.

(** [patches.slice(-n)] *)
Definition slice_last {A : Type} (n : nat) (l : list A) : list A :=
  skipn (length l - n) l.

Definition put (key : string) (prev : option StoredDoc) (val : jsval)
    (options : option UpdateOptions) : M unit :=
  let prevValue := valueOrUndefined prev in
  let* ver :=
    match prev with
    | None => let* t := hrnano in ret {| major := t; minor := 1 |}
    | Some p =>
        if is_undefined (value p)
        then let* t := hrnano in ret {| major := t; minor := 1 |}
        else ret (incrVersion (version p) 1)
    end in
  let prev_patches := match prev with Some p => patches p | None => [] end in
  let operations := compare (root prevValue) (root val) in
  if (0 <? length operations)%nat then
    let patch := {| patch_version := ver; ops := operations; patch_options := spread options |} in
    let* now := hrnano in
    let* _ := db_put key {| version := ver; value := val;
                            patches := slice_last NUM_PATCHES_TO_KEEP prev_patches ++ [patch];
                            updatedAt := now |} in
    emit key patch
  else ret tt.

Definition getWithMeta (ctx : Context) (key : string) : M (option StoredDoc) :=
  fun w =>
    match io_fault w with
    | Some msg => (Err (WrappedError ("[" +:+ debugId ctx +:+ "] " +:+ msg) (debugId ctx)), w)
    | None => (Ok (db w !! key), w)
    end.

Definition get (ctx : Context) (key : string) : M jsval :=
  let* versioned := getWithMeta ctx key in
  match versioned with
  | None => ret JUndefined
  | Some d => ret (value d)
  end.

Definition getWithVersion (ctx : Context) (key : string) : M VersionedMaybeObject :=
  let* withMeta := getWithMeta ctx key in
  match withMeta with
  | None => ret {| vm_version := {| major := 0; minor := 0 |}; vm_value := JUndefined |}
  | Some d => ret {| vm_version := version d; vm_value := value d |}
  end.

Definition startPolling (ctx : Context) (key : string) : M VersionedMaybeObject :=
  getWithVersion ctx key.

Definition create (ctx : Context) (key : string) (val : jsval) : M bool :=
  let* _ := lift (checkValue val) in
  let* prev := getWithMeta ctx key in
  if isLiveValue prev then ret false
  else let* _ := put key prev val None in ret true.

Definition remove (ctx : Context) (key : string) : M bool :=
  let* prev := getWithMeta ctx key in
  if is_undefined (valueOrUndefined prev) then ret false
  else let* _ := put key prev JUndefined None in ret true.

Definition setIfVersion (ctx : Context) (key : string) (ver : Version) (val : jsval)
    (options : option UpdateOptions) : M bool :=
  let* _ := if is_undefined val then ret tt else lift (checkValue val) in
  let* prev := getWithMeta ctx key in
  if negb (versionsMatch prev ver) then ret false
  else let* _ := put key prev val options in ret true.

End Handler.

(** ** Long polling *)

Record PollOptions : Type := mkPollOptions { readBlockTimeMs : option Z }.

(** [new Map(keysToVersions)]: a later pair for a key replaces an earlier one. *)
Definition Map_of (entries : KeyedVersions) : gmap string Version :=
  foldl (fun m kv => <[fst kv := snd kv]> m) ∅ entries.

(** The listener [poll] registers: the value it resolves the deferred
    promise with, when it does. *)
Definition patchHandler (keysToVersionsMap : gmap string Version)
    (key : string) (patch : Patch) : option KeyedPatches :=
  match keysToVersionsMap !! key with
  | Some subscribedVersion =>
      if isGreaterVersion (patch_version patch) subscribedVersion
      then Some [(key, [patch])]
      else None
  | None => None
  end.

(** A patch event delivered to the listener while it is registered, with
    the time of delivery in milliseconds after the wait begins. *)
Definition LiveEvent : Type := (Z * (string * Patch))%type.

(** Modelled from the spec: [deferred] of [./utils] is absent; a one-shot
    completion, settled by the first call of [resolve] and never rejected.
    The result is the time and the value of that first call. *)
Fixpoint deferred (handler : string -> Patch -> option KeyedPatches)
    (live : list LiveEvent) : option (Z * result KeyedPatches) :=
  match live with
  | [] => None
  | (t, (key, patch)) :: rest =>
      match handler key patch with
      | Some r => Some (t, Ok r)
      | None => deferred handler rest
      end
  end.

(** Modelled from the spec: [withTimeout] of [./utils] is absent; it waits
    up to [ms] milliseconds for the promise and gives its outcome, or
    fails with a [TimeoutError] when the promise has not settled by then. *)
Definition withTimeout {A : Type} (promise : option (Z * result A)) (ms : Z) : result A :=
  match promise with
  | Some (t, outcome) => if (t <? ms)%Z then outcome else Err (TimeoutError "Timed out")
  | None => Err (TimeoutError "Timed out")
  end.

(** [opts.readBlockTimeMs || DEFAULT_READ_BLOCK_TIME_MS] *)
Definition blockTime (opts : PollOptions) : Z :=
  match readBlockTimeMs opts with
  | Some ms => if (ms =? 0)%Z then DEFAULT_READ_BLOCK_TIME_MS else ms
  | None => DEFAULT_READ_BLOCK_TIME_MS
  end.

Fixpoint mapM {A B : Type} (f : A -> M B) (l : list A) : M (list B) :=
  match l with
  | [] => ret []
  | x :: rest =>
      let* y := f x in
      let* ys := mapM f rest in
      ret (y :: ys)
  end.

Definition scanKey (ctx : Context) (kv : string * Version) : M (option (string * list Patch)) :=
  let* doc := getWithMeta ctx (fst kv) in
  match doc with
  | None => ret None
  | Some d =>
      let found := List.filter (fun p => isGreaterVersion (patch_version p) (snd kv)) (patches d) in
      if (length found =? 0)%nat then ret None else ret (Some (fst kv, found))
  end.

(** The catch clause around the wait. *)
Definition onWaitError (e : error) : M KeyedPatches :=
  if String.eqb (error_name e) "TimeoutError" then ret [] else throw e.

(** The body of [poll], for whatever the wait helper [withTimeout] of
    [./utils] does; [live] are the patch events the emitter delivers to
    the listener between its registration and its removal. *)
Definition pollWith
    (wait : option (Z * result KeyedPatches) -> Z -> result KeyedPatches)
    (ctx : Context) (keysToVersions : KeyedVersions) (opts : PollOptions)
    (live : list LiveEvent) : M KeyedPatches :=
  let promise := deferred (patchHandler (Map_of keysToVersions)) live in
  let* keyedPatchesOrUndef := mapM (scanKey ctx) keysToVersions in
  let keyedPatches := omap id keyedPatchesOrUndef in
  if (0 <? length keyedPatches)%nat then ret keyedPatches
  else
    match wait promise (blockTime opts) with
    | Ok r => ret r
    | Err e => onWaitError e
    end.

(** [poll], with the wait helper as the spec describes it. *)
Definition poll (ctx : Context) (keysToVersions : KeyedVersions) (opts : PollOptions)
    (live : list LiveEvent) : M KeyedPatches :=
  pollWith withTimeout ctx keysToVersions opts live.

(** ** Queries *)

Inductive Filter : Type :=
| FAnd (filters : list Filter)
| FOr (filters : list Filter)
| FNot (filter : Filter)
| FEq (p : list string) (operand : jsval)
| FNe (p : list string) (operand : jsval)
| FGt (p : list string) (operand : jsval)
| FGte (p : list string) (operand : jsval)
| FLt (p : list string) (operand : jsval)
| FLte (p : list string) (operand : jsval)
| FExists (p : list string)
| FIsNull (p : list string)
| FMatches (p : list string) (pattern : string) (caseInsensitive : bool)
| FStartsWith (p : list string) (prefix : string)
| FUnsupported (name : string) (p : list string).

(** [filter.operator] *)
Definition operator (f : Filter) : string :=
  match f with
  | FAnd _ => "and" | FOr _ => "or" | FNot _ => "not"
  | FEq _ _ => "eq" | FNe _ _ => "ne"
  | FGt _ _ => "gt" | FGte _ _ => "gte" | FLt _ _ => "lt" | FLte _ _ => "lte"
  | FExists _ => "exists" | FIsNull _ => "isNull"
  | FMatches _ _ _ => "matches" | FStartsWith _ _ => "startsWith"
  | FUnsupported name _ => name
  end.

Inductive Direction : Type := ASC | DESC.

Record Order : Type := mkOrder { order_path : list string; direction : Direction }.

Record Document : Type := mkDocument { key : string; doc_value : jsval }.

Record Query : Type := mkQuery {
  filter : Filter;
  limit : option Z;
  skip : option Z;
  orderBy : option (list Order)
}.

(** The object [{ key, value }]. *)
Definition doc_object (d : Document) : jsval :=
  JObj 0 [("key", JStr (key d)); ("value", doc_value d)].

(** The check [wrappedMatch] makes on what [match] returned. *)
Definition checked (f : Filter) (isMatch : result (option bool)) : result bool :=
  match isMatch with
  | Ok (Some b) => Ok b
  | Ok None => Err (ValueError ("Got an unsupported filter operator: " +:+ operator f))
  | Err e => Err e
  end.

Section Evaluator.

Variable coerce_lt : jsval -> jsval -> option bool.

(** [new RegExp(pattern, caseInsensitive ? 'i' : undefined).test(value)] *)
Variable regexp_test : string -> bool -> string -> bool.

(** [match]; [Ok None] is the [undefined] it returns when no case of the
    second switch applies. *)
Fixpoint match_ (doc : Document) (f : Filter) {struct f} : result (option bool) :=
  match f with
  | FAnd fs =>
      (fix every (fs : list Filter) : result (option bool) :=
         match fs with
         | [] => Ok (Some true)
         | g :: rest =>
             match checked g (match_ doc g) with
             | Ok true => every rest
             | Ok false => Ok (Some false)
             | Err e => Err e
             end
         end) fs
  | FOr fs =>
      (fix some (fs : list Filter) : result (option bool) :=
         match fs with
         | [] => Ok (Some false)
         | g :: rest =>
             match checked g (match_ doc g) with
             | Ok true => Ok (Some true)
             | Ok false => some rest
             | Err e => Err e
             end
         end) fs
  | FNot g =>
      match checked g (match_ doc g) with
      | Ok b => Ok (Some (negb b))
      | Err e => Err e
      end
  | FEq p operand => Ok (Some (strict_eq (path p (doc_object doc)) operand))
  | FNe p operand => Ok (Some (negb (strict_eq (path p (doc_object doc)) operand)))
  | FGt p operand =>
      let v := path p (doc_object doc) in
      Ok (Some (String.eqb (typeof v) (typeof operand) && gt coerce_lt v operand))
  | FGte p operand =>
      let v := path p (doc_object doc) in
      Ok (Some (String.eqb (typeof v) (typeof operand) && gte coerce_lt v operand))
  | FLt p operand =>
      let v := path p (doc_object doc) in
      Ok (Some (String.eqb (typeof v) (typeof operand) && lt coerce_lt v operand))
  | FLte p operand =>
      let v := path p (doc_object doc) in
      Ok (Some (String.eqb (typeof v) (typeof operand) && lte coerce_lt v operand))
  | FExists p => Ok (Some (negb (is_undefined (path p (doc_object doc)))))
  | FIsNull p => Ok (Some (strict_eq (path p (doc_object doc)) JNull))
  | FMatches p pattern caseInsensitive =>
      match path p (doc_object doc) with
      | JStr s => Ok (Some (regexp_test pattern caseInsensitive s))
      | _ => Ok (Some false)
      end
  | FStartsWith p prefix =>
      match path p (doc_object doc) with
      | JStr s => Ok (Some (String.prefix prefix s))
      | _ => Ok (Some false)
      end
  | FUnsupported _ _ => Ok None
  end.

Definition wrappedMatch (doc : Document) (f : Filter) : result bool :=
  checked f (match_ doc f).

(** The second switch of [match] on its own, for whatever [value] the call
    of [path] gave (an own property, a member inherited from a prototype,
    or [undefined] when nothing is found); the operators of the first
    switch have no case in it. *)
Definition on_value (value : jsval) (f : Filter) : result (option bool) :=
  match f with
  | FEq _ operand => Ok (Some (strict_eq value operand))
  | FNe _ operand => Ok (Some (negb (strict_eq value operand)))
  | FGt _ operand =>
      Ok (Some (String.eqb (typeof value) (typeof operand) && gt coerce_lt value operand))
  | FGte _ operand =>
      Ok (Some (String.eqb (typeof value) (typeof operand) && gte coerce_lt value operand))
  | FLt _ operand =>
      Ok (Some (String.eqb (typeof value) (typeof operand) && lt coerce_lt value operand))
  | FLte _ operand =>
      Ok (Some (String.eqb (typeof value) (typeof operand) && lte coerce_lt value operand))
  | FExists _ => Ok (Some (negb (is_undefined value)))
  | FIsNull _ => Ok (Some (strict_eq value JNull))
  | FMatches _ pattern caseInsensitive =>
      match value with
      | JStr s => Ok (Some (regexp_test pattern caseInsensitive s))
      | _ => Ok (Some false)
      end
  | FStartsWith _ prefix =>
      match value with
      | JStr s => Ok (Some (String.prefix prefix s))
      | _ => Ok (Some false)
      end
  | FAnd _ | FOr _ | FNot _ | FUnsupported _ _ => Ok None
  end.

(** [filter.path] *)
Definition filter_path (f : Filter) : list string :=
  match f with
  | FEq p _ | FNe p _ | FGt p _ | FGte p _ | FLt p _ | FLte p _
  | FExists p | FIsNull p | FMatches p _ _ | FStartsWith p _ => p
  | FAnd _ | FOr _ | FNot _ | FUnsupported _ _ => []
  end.

(** ramda's [ascend] and [descend] *)
Definition ascend {A : Type} (fn : A -> jsval) (a b : A) : Z :=
  let aa := fn a in
  let bb := fn b in
  if lt coerce_lt aa bb then (-1)%Z else if gt coerce_lt aa bb then 1%Z else 0%Z.

Definition descend {A : Type} (fn : A -> jsval) (a b : A) : Z :=
  let aa := fn a in
  let bb := fn b in
  if gt coerce_lt aa bb then (-1)%Z else if lt coerce_lt aa bb then 1%Z else 0%Z.

Definition buildComparator (o : Order) : Document -> Document -> Z :=
  match direction o with
  | ASC => ascend (fun d => path (order_path o) (doc_object d))
  | DESC => descend (fun d => path (order_path o) (doc_object d))
  end.

End Evaluator.

(** The comparator ramda's [sortWith] hands to [sort]: the loop
    [while (result === 0 && i < fns.length) { result = fns[i](a, b); i += 1 }],
    one iteration per unit of fuel. *)
Fixpoint sortWith_loop {A : Type} (fns : list (A -> A -> Z)) (a b : A)
    (res : Z) (i : nat) (fuel : nat) : Z :=
  match fuel with
  | O => res
  | S fuel' =>
      if (res =? 0)%Z && (i <? length fns)%nat
      then sortWith_loop fns a b (nth i fns (fun _ _ => 0%Z) a b) (S i) fuel'
      else res
  end.

Definition sortWith_compare {A : Type} (fns : list (A -> A -> Z)) (a b : A) : Z :=
  sortWith_loop fns a b 0%Z 0%nat (length fns).

(** [Array.prototype.sort(comparator)] for a consistent comparator, where
    every stable sort gives the same list: every element is placed in
    front of the first element of the sorted rest it does not compare
    greater than.  For a comparator that is not consistent (a missing value
    ties with everything) the engine may return another permutation. *)
Fixpoint sort_insert {A : Type} (cmp : A -> A -> Z) (x : A) (sorted : list A) : list A :=
  match sorted with
  | [] => [x]
  | y :: rest => if (cmp x y <=? 0)%Z then x :: sorted else y :: sort_insert cmp x rest
  end.

Definition array_sort {A : Type} (cmp : A -> A -> Z) (l : list A) : list A :=
  foldr (sort_insert cmp) [] l.

Definition sortWith {A : Type} (fns : list (A -> A -> Z)) (l : list A) : list A :=
  array_sort (sortWith_compare fns) l.

(** The LevelDB iterator: every entry, in ascending order of the keys. *)
Definition compare_keys (a b : string * StoredDoc) : Z :=
  match String.compare (fst a) (fst b) with
  | Lt => (-1)%Z
  | Datatypes.Eq => 0%Z
  | Gt => 1%Z
  end.

Definition iterator (w : World) : list (string * StoredDoc) :=
  array_sort compare_keys (map_to_list (db w)).

Section Find.

Variable coerce_lt : jsval -> jsval -> option bool.
Variable regexp_test : string -> bool -> string -> bool.

(** The callback [next] over the entries the iterator yields. *)
Fixpoint collect (flt : Filter) (rows : list (string * StoredDoc)) : result (list Document) :=
  match rows with
  | [] => Ok []
  | (k, d) :: rest =>
      let doc := {| key := k; doc_value := value d |} in
      if is_undefined (value d) then collect flt rest
      else
        match wrappedMatch coerce_lt regexp_test doc flt with
        | Err e => Err e
        | Ok isMatch =>
            match collect flt rest with
            | Err e => Err e
            | Ok results => Ok (if isMatch then doc :: results else results)
            end
        end
  end.

(** [find]; [Err] stands for a call that delivers no list: the iterator
    reported an error and the promise is rejected with it, or the promise
    never settles (the [ValueError] of an unsupported operator leaves the
    callback [next] as an exception; a store that is closed may never call
    back). *)
Definition find (ctx : Context) (q : Query) : M (list Document) :=
  fun w =>
    match io_fault w with
    | Some msg => (Err (LevelError msg), w)
    | None =>
        match collect (filter q) (iterator w) with
        | Err e => (Err e, w)
        | Ok results =>
            let sortedResults :=
              match orderBy q with
              | Some orders => sortWith (List.map (buildComparator coerce_lt) orders) results
              | None => results
              end in
            let from := match skip q with Some s => s | None => 0%Z end in
            let stop := match limit q with
                        | None => None
                        | Some n => Some (from + n)%Z
                        end in
            (Ok (slice (skip q) stop sortedResults), w)
        end
    end.

End Find.

(** ** Concrete collaborators for the sample runs *)

(** A JSON diff that replaces the whole document whenever the two values
    differ structurally. *)
Definition replaceDiff (a b : jsval) : list Operation :=
  if struct_eqb a b then [] else [OpReplace "" b].

(** A clock that advances by one at each reading. *)
Definition sampleClock (n : nat) : Z := (1000 + Z.of_nat n)%Z.

(** An engine answer for inputs that need no conversion. *)
Definition noCoercion (a b : jsval) : option bool := None.

(** A regular-expression engine for queries without [matches]. *)
Definition noRegexp (pattern : string) (caseInsensitive : bool) (s : string) : bool := false.

Definition ctx0 : Context := {| debugId := "dbg" |}.

Definition emptyWorld : World :=
  {| db := ∅; io_fault := None; emitted := []; ticks := 0 |}.

(** The version a client reads back for a key. *)
Definition currentVersion (w : World) (k : string) : Version :=
  match db w !! k with
  | Some d => version d
  | None => {| major := 0; minor := 0 |}
  end.

(** [n] successive writes of distinct numbers to the key ["k"], each under
    the version read back just before. *)
Fixpoint commits (n : nat) (w : World) : World :=
  match n with
  | O => w
  | S n' =>
      let w' := commits n' w in
      snd (setIfVersion sampleClock replaceDiff ctx0 "k" (currentVersion w' "k")
             (JNum (Z.of_nat n)) None w')
  end.

(** A live document under ["k"], as [create] leaves it. *)
Definition liveWorld : World :=
  snd (create sampleClock replaceDiff ctx0 "k" (JObj 1 [("n", JNum 1)]) emptyWorld).

Definition liveDoc : StoredDoc :=
  {| version := {| major := 1000; minor := 1 |};
     value := JObj 1 [("n", JNum 1)];
     patches := [{| patch_version := {| major := 1000; minor := 1 |};
                    ops := [OpReplace "" (root (JObj 1 [("n", JNum 1)]))];
                    patch_options := [] |}];
     updatedAt := 1001 |}.

(** The tombstone [remove] then leaves under ["k"]. *)
Definition tombstoneWorld : World :=
  snd (remove sampleClock replaceDiff ctx0 "k" liveWorld).

Definition tombstoneDoc : StoredDoc :=
  {| version := {| major := 1000; minor := 2 |};
     value := JUndefined;
     patches := patches liveDoc ++
                [{| patch_version := {| major := 1000; minor := 2 |};
                    ops := [OpReplace "" (root JUndefined)];
                    patch_options := [] |}];
     updatedAt := 1002 |}.

(** Two documents, the second without an [age]. *)
Definition shelfWorld : World :=
  snd (create sampleClock replaceDiff ctx0 "b" (JObj 2 [("name", JStr "x")])
         (snd (create sampleClock replaceDiff ctx0 "a" (JObj 1 [("age", JNum 5)]) emptyWorld))).

Definition byAge (d : Direction) : Query :=
  {| filter := FAnd []; limit := None; skip := None;
     orderBy := Some [{| order_path := ["value"; "age"]; direction := d |}] |}.

Definition withAge : Document := {| key := "a"; doc_value := JObj 1 [("age", JNum 5)] |}.
Definition withoutAge : Document := {| key := "b"; doc_value := JObj 2 [("name", JStr "x")] |}.
Definition elder : Document := {| key := "c"; doc_value := JObj 3 [("age", JNum 7)] |}.

(** A document whose [tags] is an array, and an operand that is another
    array with the same content. *)
Definition taggedDoc : Document :=
  {| key := "a"; doc_value := JObj 1 [("tags", JArr 2 [JNum 1])] |}.

Definition tagsOperand : jsval := JArr 9 [JNum 1].

(** A subscription to ["k"] from the version of [liveDoc], and two events:
    one for a key that is not subscribed, one for ["k"] that comes after a
    block time of one second. *)
Definition subscription : KeyedVersions := [("k", {| major := 1000; minor := 1 |})].

Definition lateEvents : list LiveEvent :=
  [(10%Z, ("z", {| patch_version := {| major := 2000; minor := 1 |}; ops := [];
                  patch_options := [] |}));
   (1500%Z, ("k", {| patch_version := {| major := 1000; minor := 2 |}; ops := [];
                    patch_options := [] |}))].

(** The version [put] computes for a commit over [prev] when the clock
    reads [t]. *)
Definition committedVersion (prev : option StoredDoc) (t : Z) : Version :=
  if isLiveValue prev
  then incrVersion (match prev with Some p => version p | None => {| major := 0; minor := 0 |} end) 1
  else {| major := t; minor := 1 |}.

(** Identity of two composite values. *)
Definition same_object (a b : jsval) : bool :=
  match a, b with
  | JArr r _, JArr r' _ => Nat.eqb r r'
  | JObj r _, JObj r' _ => Nat.eqb r r'
  | _, _ => false
  end.


(** A value the type check of [setIfVersion] lets through. *)
Definition admissible (val : jsval) : Prop :=
  is_undefined val = true \/ checkValue val = Ok tt.

(** The outcome of [await this.put(...); return true]. *)
Definition settled (r : result unit * World) : result bool * World :=
  (match fst r with Ok _ => Ok true | Err e => Err e end, snd r).

(** The worlds the handler can be in: it starts on an empty store, the
    store may start or stop failing at any time, and every public write
    operation runs to its end under the write lock. *)
Inductive reachable (clock : nat -> Z) (compare : jsval -> jsval -> list Operation)
  : World -> Prop :=
| reach_empty f n :
    reachable clock compare {| db := ∅; io_fault := f; emitted := []; ticks := n |}
| reach_fault w f :
    reachable clock compare w ->
    reachable clock compare
      {| db := db w; io_fault := f; emitted := emitted w; ticks := ticks w |}
| reach_create w ctx key val :
    reachable clock compare w ->
    reachable clock compare (snd (create clock compare ctx key val w))
| reach_remove w ctx key :
    reachable clock compare w ->
    reachable clock compare (snd (remove clock compare ctx key w))
| reach_setIfVersion w ctx key ver val options :
    reachable clock compare w ->
    reachable clock compare (snd (setIfVersion clock compare ctx key ver val options w)).

(** What every stored envelope satisfies. *)
Definition well_versioned (d : StoredDoc) : Prop :=
  (1 <= minor (version d))%Z /\ (length (patches d) <= S NUM_PATCHES_TO_KEEP)%nat.

(** ** Further notions for the properties of the handler *)

(** A clock whose readings grow strictly and are never negative. *)
Definition increasing (clock : nat -> Z) : Prop :=
  (0 <= clock 0%nat)%Z /\ forall i j, (i < j)%nat -> (clock i < clock j)%Z.

(** [q] carries a greater version than [p]. *)
Definition older (p q : Patch) : Prop :=
  isGreaterVersion (patch_version q) (patch_version p) = true.

(** The major version of an envelope is a reading the clock has already
    given. *)
Definition stamped (clock : nat -> Z) (w : World) (d : StoredDoc) : Prop :=
  exists i, (i < ticks w)%nat /\ major (version d) = clock i.

(** What one write operation on [key] may do to the world [w]: nothing to
    the entries and the events, or one envelope written under [key] and
    one event emitted for [key], carrying the last patch of that
    envelope. *)
Definition one_commit (key : string) (w w' : World) : Prop :=
  (db w' = db w /\ emitted w' = emitted w) \/
  exists (d' : StoredDoc) (p : Patch),
    db w' = <[key := d']> (db w) /\
    emitted w' = (emitted w ++ [(key, p)])%list /\
    last (patches d') = Some p /\
    patch_version p = version d'.

(** Every envelope of [w] ends its history with the patch of its own
    version and has a major the clock has already given. *)
Definition sealed (clock : nat -> Z) (w : World) : Prop :=
  forall k d, db w !! k = Some d ->
    (exists p, last (patches d) = Some p /\ patch_version p = version d) /\
    stamped clock w d.

(** What the scan of [poll] keeps for one subscribed key: the stored
    patches above the given version, when there are any. *)
Definition scanned (w : World) (kv : string * Version) : option (string * list Patch) :=
  match db w !! fst kv with
  | None => None
  | Some d =>
      match List.filter (fun p => isGreaterVersion (patch_version p) (snd kv)) (patches d) with
      | [] => None
      | found => Some (fst kv, found)
      end
  end.



(** The constructor of the handler over the store found at [dbPath]: one
    [create] for every item of the initial data, in order, under the write
    lock; what a [create] returns or raises is dropped. *)
Definition templateContext : Context := {| debugId := "template initial data" |}.

Definition construct (clock : nat -> Z) (compare : jsval -> jsval -> list Operation)
    (items : list (string * jsval)) (opened : World) : World :=
  foldl (fun w item => snd (create clock compare templateContext (fst item) (snd item) w))
    opened items.

(** A subscription to ["k"] from before its first version, and a patch
    event for ["k"] above the version of [liveDoc]. *)
Definition earlySubscription : KeyedVersions := [("k", {| major := 1000; minor := 0 |})].

Definition nextPatch : Patch :=
  {| patch_version := {| major := 1000; minor := 2 |}; ops := []; patch_options := [] |}.

Definition otherPatch : Patch :=
  {| patch_version := {| major := 2000; minor := 1 |}; ops := []; patch_options := [] |}.

Definition firstPatch : Patch :=
  {| patch_version := {| major := 1000; minor := 1 |};
     ops := [OpReplace "" (root (JObj 1 [("n", JNum 1)]))];
     patch_options := [] |}.

Definition oneSecond : PollOptions := {| readBlockTimeMs := Some 1000%Z |}.

(** A store whose every call fails. *)
Definition brokenWorld : World :=
  {| db := db liveWorld; io_fault := Some "IO error"; emitted := emitted liveWorld;
     ticks := ticks liveWorld |}.

(** * Properties *)

Lemma struct_eqb_root a b : struct_eqb (root a) (root b) = struct_eqb a b.
Proof.
  unfold root. simpl. now rewrite !andb_true_r.
Qed.

Lemma replaceDiff_spec a b : replaceDiff a b = [] <-> struct_eqb a b = true.
Proof.
  unfold replaceDiff. destruct (struct_eqb a b); split; intro H; congruence.
Qed.

Lemma world_eta w :
  {| db := db w; io_fault := io_fault w; emitted := emitted w; ticks := ticks w |} = w.
Proof. now destruct w. Qed.

Section HandlerProperties.

Variable clock : nat -> Z.
Variable compare : jsval -> jsval -> list Operation.

(** The contract of the diff: no operation exactly between structurally
    equal values. *)
Hypothesis compare_spec : forall a b, compare a b = [] <-> struct_eqb a b = true.

Lemma compare_root_nil prev val :
  struct_eqb (valueOrUndefined prev) val = true ->
  compare (root (valueOrUndefined prev)) (root val) = [].
Proof.
  intro H. apply compare_spec. now rewrite struct_eqb_root.
Qed.

Lemma compare_root_cons prev val :
  struct_eqb (valueOrUndefined prev) val = false ->
  (0 <? length (compare (root (valueOrUndefined prev)) (root val)))%nat = true.
Proof.
  intro H.
  destruct (compare (root (valueOrUndefined prev)) (root val)) eqn:E; [|reflexivity].
  apply compare_spec in E. rewrite struct_eqb_root in E. congruence.
Qed.

(** A [put] of a structurally equal value writes nothing and emits
    nothing. *)
Lemma put_equal key prev val options w :
  struct_eqb (valueOrUndefined prev) val = true ->
  fst (put clock compare key prev val options w) = Ok tt /\
  db (snd (put clock compare key prev val options w)) = db w /\
  io_fault (snd (put clock compare key prev val options w)) = io_fault w /\
  emitted (snd (put clock compare key prev val options w)) = emitted w.
Proof.
  intro H. unfold put.
  rewrite (compare_root_nil _ _ H). simpl.
  destruct prev as [p|]; [destruct (is_undefined (value p))|];
    unfold bind, hrnano, ret; simpl; auto.
Qed.

(** On a live previous document it does not even read the clock. *)
Lemma put_equal_live key p val options w :
  is_undefined (value p) = false ->
  struct_eqb (value p) val = true ->
  put clock compare key (Some p) val options w = (Ok tt, w).
Proof.
  intros Hl H. unfold put.
  rewrite (compare_root_nil (Some p) _ H). simpl.
  rewrite Hl. reflexivity.
Qed.

(** A [put] of a different value on a working store: one write, one
    event. *)
Lemma put_commit key prev val options w :
  struct_eqb (valueOrUndefined prev) val = false ->
  io_fault w = None ->
  exists now n,
    let ver := committedVersion prev (clock (ticks w)) in
    let patch := {| patch_version := ver;
                    ops := compare (root (valueOrUndefined prev)) (root val);
                    patch_options := spread options |} in
    put clock compare key prev val options w =
      (Ok tt,
       {| db := <[key := {| version := ver; value := val;
                            patches := slice_last NUM_PATCHES_TO_KEEP
                                         (match prev with Some p => patches p | None => [] end)
                                       ++ [patch];
                            updatedAt := now |}]> (db w);
          io_fault := None;
          emitted := emitted w ++ [(key, patch)];
          ticks := n |}).
Proof.
  intros H Hf. unfold put.
  rewrite (compare_root_cons _ _ H).
  destruct prev as [p|]; [destruct (is_undefined (value p)) eqn:Hu|];
    unfold committedVersion, isLiveValue; rewrite ?Hu;
    unfold bind, hrnano, ret, db_put, emit; simpl; rewrite Hf; simpl;
    eexists; eexists; reflexivity.
Qed.

(** The history a commit stores: the last [NUM_PATCHES_TO_KEEP] patches of
    the previous envelope and the new one. *)
Lemma put_commit_history_length key prev val options w :
  struct_eqb (valueOrUndefined prev) val = false ->
  io_fault w = None ->
  exists d',
    db (snd (put clock compare key prev val options w)) !! key = Some d' /\
    length (patches d') =
      S (Nat.min (length (match prev with Some p => patches p | None => [] end))
           NUM_PATCHES_TO_KEEP).
Proof.
  intros H Hf. destruct (put_commit key prev val options w H Hf) as (now & n & Hput).
  simpl in Hput. rewrite Hput. simpl. rewrite lookup_insert_eq.
  eexists. split; [reflexivity|]. simpl.
  rewrite length_app. unfold slice_last. rewrite length_skipn. simpl. lia.
Qed.

(** A failing store makes the commit fail before anything is written or
    emitted. *)
Lemma put_fault key prev val options w msg :
  struct_eqb (valueOrUndefined prev) val = false ->
  io_fault w = Some msg ->
  fst (put clock compare key prev val options w) = Err (LevelError msg) /\
  db (snd (put clock compare key prev val options w)) = db w /\
  emitted (snd (put clock compare key prev val options w)) = emitted w.
Proof.
  intros H Hf. unfold put.
  rewrite (compare_root_cons _ _ H).
  destruct prev as [p|]; [destruct (is_undefined (value p)) eqn:Hu|];
    unfold bind, hrnano, ret, db_put, emit; simpl; rewrite Hf; simpl; auto.
Qed.

Lemma getWithMeta_ok ctx key w :
  io_fault w = None -> getWithMeta ctx key w = (Ok (db w !! key), w).
Proof. intro Hf. unfold getWithMeta. now rewrite Hf. Qed.

Lemma getWithMeta_fault ctx key w msg :
  io_fault w = Some msg ->
  getWithMeta ctx key w =
    (Err (WrappedError ("[" +:+ debugId ctx +:+ "] " +:+ msg) (debugId ctx)), w).
Proof. intro Hf. unfold getWithMeta. now rewrite Hf. Qed.

Lemma bind_put_true key prev val options w :
  (let* _ := put clock compare key prev val options in ret true) w =
  settled (put clock compare key prev val options w).
Proof.
  unfold bind, settled.
  destruct (put clock compare key prev val options w) as [[u|e] w']; reflexivity.
Qed.

(** [setIfVersion] step by step: the type check, the read, the version
    guard, the commit. *)
Lemma setIfVersion_cases ctx key ver val options w :
  setIfVersion clock compare ctx key ver val options w =
    match (if is_undefined val then Ok tt else checkValue val) with
    | Err e => (Err e, w)
    | Ok _ =>
        match io_fault w with
        | Some msg =>
            (Err (WrappedError ("[" +:+ debugId ctx +:+ "] " +:+ msg) (debugId ctx)), w)
        | None =>
            if versionsMatch (db w !! key) ver
            then settled (put clock compare key (db w !! key) val options w)
            else (Ok false, w)
        end
    end.
Proof.
  unfold setIfVersion, bind at 1 2.
  destruct (is_undefined val); [|unfold lift; destruct (checkValue val); [|reflexivity]];
    unfold ret at 1; unfold getWithMeta;
    (destruct (io_fault w); [reflexivity|]);
    (destruct (versionsMatch (db w !! key) ver); simpl; [apply bind_put_true|reflexivity]).
Qed.

Lemma create_cases ctx key val w :
  create clock compare ctx key val w =
    match checkValue val with
    | Err e => (Err e, w)
    | Ok _ =>
        match io_fault w with
        | Some msg =>
            (Err (WrappedError ("[" +:+ debugId ctx +:+ "] " +:+ msg) (debugId ctx)), w)
        | None =>
            if isLiveValue (db w !! key) then (Ok false, w)
            else settled (put clock compare key (db w !! key) val None w)
        end
    end.
Proof.
  unfold create, bind at 1 2, lift.
  destruct (checkValue val); [|reflexivity].
  unfold getWithMeta. destruct (io_fault w); [reflexivity|].
  destruct (isLiveValue (db w !! key)); simpl; [reflexivity|apply bind_put_true].
Qed.

Lemma remove_cases ctx key w :
  remove clock compare ctx key w =
    match io_fault w with
    | Some msg =>
        (Err (WrappedError ("[" +:+ debugId ctx +:+ "] " +:+ msg) (debugId ctx)), w)
    | None =>
        if is_undefined (valueOrUndefined (db w !! key)) then (Ok false, w)
        else settled (put clock compare key (db w !! key) JUndefined None w)
    end.
Proof.
  unfold remove, bind at 1.
  unfold getWithMeta. destruct (io_fault w); [reflexivity|].
  destruct (is_undefined (valueOrUndefined (db w !! key))); simpl;
    [reflexivity|apply bind_put_true].
Qed.

Lemma versionsMatch_self d : versionsMatch (Some d) (version d) = true.
Proof. unfold versionsMatch. now rewrite !Z.eqb_refl. Qed.

(** C3: writing a value structurally equal to the stored one under the
    current version performs no write: the stored entries (so the
    envelope of the key, with its version, value, patches and timestamp)
    are unchanged and no patch event is emitted. *)
Theorem setIfVersion_equal_value_no_write ctx key d b options w :
  db w !! key = Some d ->
  struct_eqb (value d) b = true ->
  db (snd (setIfVersion clock compare ctx key (version d) b options w)) = db w /\
  db (snd (setIfVersion clock compare ctx key (version d) b options w)) !! key = Some d /\
  emitted (snd (setIfVersion clock compare ctx key (version d) b options w)) = emitted w.
Proof.
  intros Hd Heq.
  rewrite setIfVersion_cases, Hd, versionsMatch_self.
  destruct (put_equal key (Some d) b options w Heq) as (_ & Hdb & _ & He).
  destruct (if is_undefined b then Ok tt else checkValue b); [|now simpl].
  destruct (io_fault w); [now simpl|].
  unfold settled; simpl. now rewrite Hdb, He.
Qed.

(** C4: a [setIfVersion] whose expected version does not match the
    current envelope (an absent envelope matching exactly (0,0)) returns
    false, raises nothing and leaves the whole state as it was. *)
Theorem setIfVersion_version_mismatch ctx key ver val options w :
  admissible val ->
  io_fault w = None ->
  versionsMatch (db w !! key) ver = false ->
  setIfVersion clock compare ctx key ver val options w = (Ok false, w).
Proof.
  intros Ha Hf Hm. rewrite setIfVersion_cases, Hf, Hm.
  destruct Ha as [-> | Hc]; [reflexivity|].
  destruct (is_undefined val); [reflexivity|now rewrite Hc].
Qed.

Lemma setIfVersion_true_inv ctx key ver val options w :
  fst (setIfVersion clock compare ctx key ver val options w) = Ok true ->
  io_fault w = None /\ versionsMatch (db w !! key) ver = true /\
  snd (setIfVersion clock compare ctx key ver val options w) =
    snd (put clock compare key (db w !! key) val options w).
Proof.
  rewrite setIfVersion_cases.
  destruct (if is_undefined val then Ok tt else checkValue val); [|discriminate].
  destruct (io_fault w); [discriminate|].
  destruct (versionsMatch (db w !! key) ver); [|discriminate].
  intros _. auto.
Qed.

Lemma versionsMatch_live_incr p V :
  versionsMatch (Some p) V = true ->
  incrVersion (version p) 1 = {| major := major V; minor := (minor V + 1)%Z |}.
Proof.
  unfold versionsMatch, incrVersion. intro H.
  apply andb_true_iff in H as [H1 H2].
  apply Z.eqb_eq in H1, H2. now rewrite H1, H2.
Qed.

(** C2 (amended): after a successful [setIfVersion(k, V, v')] whose JSON
    patch from the current value to [v'] is not empty, the stored version
    is [(V.major, V.minor + 1)] when the previous envelope is a live
    document; over an absent key or a tombstone it is [(hrnano(), 1)].
    When the patch is empty the call is as successful, writes nothing and
    leaves the version as it was. *)
Theorem setIfVersion_committed_version ctx key V v' options w :
  fst (setIfVersion clock compare ctx key V v' options w) = Ok true ->
  (compare (root (valueOrUndefined (db w !! key))) (root v') <> [] ->
   exists d',
     db (snd (setIfVersion clock compare ctx key V v' options w)) !! key = Some d' /\
     version d' =
       if isLiveValue (db w !! key)
       then {| major := major V; minor := (minor V + 1)%Z |}
       else {| major := clock (ticks w); minor := 1 |}) /\
  (compare (root (valueOrUndefined (db w !! key))) (root v') = [] ->
   db (snd (setIfVersion clock compare ctx key V v' options w)) = db w /\
   emitted (snd (setIfVersion clock compare ctx key V v' options w)) = emitted w).
Proof.
  intros Hok.
  destruct (setIfVersion_true_inv _ _ _ _ _ _ Hok) as (Hf & Hm & ->).
  unfold put.
  destruct (compare (root (valueOrUndefined (db w !! key))) (root v')) as [|op ops'] eqn:Hc.
  - split; [congruence|]. intros _. simpl.
    destruct (db w !! key) as [p|]; [destruct (is_undefined (value p))|];
      unfold bind, hrnano, ret; simpl; auto.
  - split; [|discriminate]. intros _. simpl.
    destruct (db w !! key) as [p|] eqn:Hp; [destruct (is_undefined (value p)) eqn:Hu|];
      unfold bind, hrnano, ret, db_put, emit; simpl; rewrite Hf; simpl;
      rewrite lookup_insert_eq; eexists; (split; [reflexivity|]);
      simpl; rewrite ?Hu; simpl; try reflexivity.
    now apply versionsMatch_live_incr.
Qed.

Lemma checkValue_defined val : checkValue val = Ok tt -> is_undefined val = false.
Proof. destruct val; try reflexivity. vm_compute. discriminate. Qed.

Lemma not_live_undefined prev :
  isLiveValue prev = false -> valueOrUndefined prev = JUndefined.
Proof.
  destruct prev as [p|]; [|reflexivity]. simpl.
  destruct (value p); simpl; intro H; try discriminate. reflexivity.
Qed.

Lemma struct_eqb_undefined val :
  is_undefined val = false -> struct_eqb JUndefined val = false.
Proof. destruct val; simpl; intro H; try reflexivity. discriminate. Qed.


Lemma put_error key prev val options w e :
  fst (put clock compare key prev val options w) = Err e ->
  exists msg, e = LevelError msg.
Proof.
  unfold put.
  destruct (0 <? length (compare (root (valueOrUndefined prev)) (root val)))%nat;
    (destruct prev as [p|]; [destruct (is_undefined (value p))|]);
    unfold bind, hrnano, ret, db_put, emit; simpl;
    try discriminate;
    (destruct (io_fault w) as [msg|]; simpl; [|discriminate]);
    intro H; inversion H; eauto.
Qed.

Lemma typeof_not_allowed val :
  typeof val ∉ allowedTypes ->
  checkValue val =
    Err (TypeError ("Non-JSONable value of type " +:+ typeof val +:+ " at top level")).
Proof.
  intro H. unfold checkValue. now rewrite bool_decide_eq_false_2.
Qed.

(** C6 (amended): [create] raises a TypeError, before any state change,
    for every top-level value whose [typeof] is not object, boolean,
    number or string (so for [undefined]); [setIfVersion] does the same
    except for [undefined], which it never rejects with a TypeError; a
    bare [null] passes the check of both. *)
Theorem checkValue_rejects ctx key ver val options w :
  typeof val ∉ allowedTypes ->
  create clock compare ctx key val w =
    (Err (TypeError ("Non-JSONable value of type " +:+ typeof val +:+ " at top level")), w) /\
  (is_undefined val = false ->
   setIfVersion clock compare ctx key ver val options w =
     (Err (TypeError ("Non-JSONable value of type " +:+ typeof val +:+ " at top level")), w)) /\
  (is_undefined val = true ->
   forall msg, fst (setIfVersion clock compare ctx key ver val options w) <> Err (TypeError msg)) /\
  (forall msg, fst (create clock compare ctx key JNull w) <> Err (TypeError msg)) /\
  (forall msg, fst (setIfVersion clock compare ctx key ver JNull options w) <> Err (TypeError msg)).
Proof.
  intro H. pose proof (typeof_not_allowed _ H) as Hc.
  assert (Hput : forall prev v msg,
             fst (settled (put clock compare key prev v options w)) <> Err (TypeError msg)).
  { intros prev v msg. unfold settled. simpl.
    destruct (fst (put clock compare key prev v options w)) eqn:E; [discriminate|].
    apply put_error in E as [m ->]. discriminate. }
  assert (Hput' : forall prev v msg,
             fst (settled (put clock compare key prev v None w)) <> Err (TypeError msg)).
  { intros prev v msg. unfold settled. simpl.
    destruct (fst (put clock compare key prev v None w)) eqn:E; [discriminate|].
    apply put_error in E as [m ->]. discriminate. }
  repeat split.
  - now rewrite create_cases, Hc.
  - intro Hu. now rewrite setIfVersion_cases, Hu, Hc.
  - intros Hu msg. rewrite setIfVersion_cases, Hu.
    destruct (io_fault w); [discriminate|].
    destruct (versionsMatch (db w !! key) ver); [apply Hput|discriminate].
  - intro msg. rewrite create_cases.
    replace (checkValue JNull) with (@Ok unit tt) by (now vm_compute).
    destruct (io_fault w); [discriminate|].
    destruct (isLiveValue (db w !! key)); [discriminate|apply Hput'].
  - intro msg. rewrite setIfVersion_cases. simpl.
    replace (checkValue JNull) with (@Ok unit tt) by (now vm_compute).
    destruct (io_fault w); [discriminate|].
    destruct (versionsMatch (db w !! key) ver); [apply Hput|discriminate].
Qed.

Lemma slice_last_length {A : Type} (n : nat) (l : list A) :
  length (slice_last n l) = Nat.min (length l) n.
Proof. unfold slice_last. rewrite length_skipn. lia. Qed.

(** What a [put] does to the entries: nothing, or one insertion. *)
Lemma put_outcome key prev val options w :
  db (snd (put clock compare key prev val options w)) = db w \/
  exists now patch,
    db (snd (put clock compare key prev val options w)) =
      <[key := {| version := committedVersion prev (clock (ticks w)); value := val;
                  patches := slice_last NUM_PATCHES_TO_KEEP
                               (match prev with Some p => patches p | None => [] end)
                             ++ [patch];
                  updatedAt := now |}]> (db w).
Proof.
  unfold put.
  destruct (0 <? length (compare (root (valueOrUndefined prev)) (root val)))%nat.
  - destruct (io_fault w) as [msg|] eqn:Hf.
    + left.
      destruct prev as [p|]; [destruct (is_undefined (value p))|];
        unfold bind, hrnano, ret, db_put, emit; simpl; now rewrite Hf.
    + right.
      destruct prev as [p|]; [destruct (is_undefined (value p)) eqn:Hu|];
        unfold committedVersion, isLiveValue; rewrite ?Hu;
        unfold bind, hrnano, ret, db_put, emit; simpl; rewrite Hf; simpl;
        eexists; eexists; reflexivity.
  - left.
    destruct prev as [p|]; [destruct (is_undefined (value p))|];
      unfold bind, hrnano, ret; reflexivity.
Qed.

Lemma put_well_versioned key val options w :
  (forall k d, db w !! k = Some d -> well_versioned d) ->
  forall k d,
    db (snd (put clock compare key (db w !! key) val options w)) !! k = Some d ->
    well_versioned d.
Proof.
  intros Hinv k d.
  destruct (put_outcome key (db w !! key) val options w) as [-> | (now & patch & ->)];
    [apply Hinv|].
  destruct (decide (key = k)) as [->|Hne].
  - rewrite lookup_insert_eq. intro H. inversion H; subst d; clear H.
    split; simpl.
    + unfold committedVersion.
      destruct (db w !! k) as [p|] eqn:Hp; simpl; [|lia].
      destruct (is_undefined (value p)); simpl; [lia|].
      destruct (Hinv _ _ Hp) as [Hm _]. lia.
    + rewrite length_app, slice_last_length. simpl. unfold NUM_PATCHES_TO_KEEP. lia.
  - rewrite lookup_insert_ne by done. apply Hinv.
Qed.

(** Every envelope of a reachable world has a minor version of at least
    one and at most [NUM_PATCHES_TO_KEEP + 1] patches. *)
Lemma reachable_well_versioned w :
  reachable clock compare w ->
  forall k d, db w !! k = Some d -> well_versioned d.
Proof.
  induction 1 as [f n | w f Hr IH | w ctx key val Hr IH | w ctx key Hr IH
                 | w ctx key ver val options Hr IH]; intros k d; simpl.
  - now rewrite lookup_empty.
  - apply IH.
  - rewrite create_cases.
    destruct (checkValue val); [|apply IH].
    destruct (io_fault w); [apply IH|].
    destruct (isLiveValue (db w !! key)); [apply IH|].
    unfold settled; simpl. now apply put_well_versioned.
  - rewrite remove_cases.
    destruct (io_fault w); [apply IH|].
    destruct (is_undefined (valueOrUndefined (db w !! key))); [apply IH|].
    unfold settled; simpl. now apply put_well_versioned.
  - rewrite setIfVersion_cases.
    destruct (if is_undefined val then Ok tt else checkValue val); [|apply IH].
    destruct (io_fault w); [apply IH|].
    destruct (versionsMatch (db w !! key) ver); [|apply IH].
    unfold settled; simpl. now apply put_well_versioned.
Qed.

(** C10: on a working store [getWithVersion] gives, for a key that holds
    a tombstone, the version of the tombstone and no value, and that
    version is not (0,0); it gives (0,0) for a key without an envelope,
    and for no other key. *)
Theorem getWithVersion_tombstone ctx key w :
  reachable clock compare w ->
  io_fault w = None ->
  (forall d, db w !! key = Some d -> is_undefined (value d) = true ->
     getWithVersion ctx key w =
       (Ok {| vm_version := version d; vm_value := JUndefined |}, w) /\
     version d <> {| major := 0; minor := 0 |}) /\
  (db w !! key = None ->
     getWithVersion ctx key w =
       (Ok {| vm_version := {| major := 0; minor := 0 |}; vm_value := JUndefined |}, w)) /\
  (forall r, getWithVersion ctx key w = (Ok r, w) ->
     vm_version r = {| major := 0; minor := 0 |} -> db w !! key = None).
Proof.
  intros Hr Hf.
  assert (Hg : getWithVersion ctx key w =
               match db w !! key with
               | Some d => (Ok {| vm_version := version d; vm_value := value d |}, w)
               | None => (Ok {| vm_version := {| major := 0; minor := 0 |};
                                vm_value := JUndefined |}, w)
               end).
  { unfold getWithVersion, bind. rewrite (getWithMeta_ok _ _ _ Hf).
    now destruct (db w !! key). }
  assert (Hv : forall d, db w !! key = Some d -> version d <> {| major := 0; minor := 0 |}).
  { intros d Hd Hz. destruct (reachable_well_versioned w Hr _ _ Hd) as [Hm _].
    rewrite Hz in Hm. simpl in Hm. lia. }
  split; [|split].
  - intros d Hd Hu. split; [|now apply Hv].
    rewrite Hg, Hd. destruct (value d); try discriminate. reflexivity.
  - intro Hn. now rewrite Hg, Hn.
  - intros r Hgr Hz. rewrite Hg in Hgr.
    destruct (db w !! key) as [d|] eqn:Hd; [|reflexivity].
    inversion Hgr; subst r. simpl in Hz. now apply Hv in Hz.
Qed.

End HandlerProperties.

(** ** The query evaluator *)

Lemma strict_eq_primitive a b :
  is_primitive b = true -> strict_eq a b = struct_eqb a b.
Proof. destruct a, b; simpl; intro H; try reflexivity; discriminate. Qed.

Lemma strict_eq_composite a b :
  is_primitive b = false -> strict_eq a b = same_object a b.
Proof. destruct a, b; simpl; intro H; try reflexivity; discriminate. Qed.

(** C7 (amended): an [eq] filter is true exactly when the value at its
    path is strictly equal to the operand, and [ne] exactly when it is not:
    for a primitive operand (undefined, null, boolean, number, string) that
    is structural equality, for an object or an array it is identity of the
    two objects, whatever their contents. *)
Theorem eq_ne_filter_strict coerce_lt regexp_test doc p operand :
  match_ coerce_lt regexp_test doc (FEq p operand) =
    Ok (Some (if is_primitive operand
              then struct_eqb (path p (doc_object doc)) operand
              else same_object (path p (doc_object doc)) operand)) /\
  match_ coerce_lt regexp_test doc (FNe p operand) =
    Ok (Some (negb (if is_primitive operand
                    then struct_eqb (path p (doc_object doc)) operand
                    else same_object (path p (doc_object doc)) operand))).
Proof.
  simpl. destruct (is_primitive operand) eqn:Hp.
  - now rewrite (strict_eq_primitive _ _ Hp).
  - now rewrite (strict_eq_composite _ _ Hp).
Qed.




Lemma js_lt_undefined_l coerce_lt b : js_lt coerce_lt JUndefined b = None.
Proof. reflexivity. Qed.

Lemma js_lt_undefined_r coerce_lt a : js_lt coerce_lt a JUndefined = None.
Proof. now destruct a. Qed.




(** ** Long polling *)

Lemma scanKey_nothing ctx kv w :
  io_fault w = None ->
  (forall d p, db w !! fst kv = Some d -> In p (patches d) ->
               isGreaterVersion (patch_version p) (snd kv) = false) ->
  scanKey ctx kv w = (Ok None, w).
Proof.
  intros Hf H. unfold scanKey, bind, getWithMeta. rewrite Hf.
  destruct (db w !! fst kv) as [d|] eqn:Hd; [|reflexivity].
  assert (Hnil : List.filter (fun p => isGreaterVersion (patch_version p) (snd kv)) (patches d) = []).
  { specialize (H d). induction (patches d) as [|p ps IH]; [reflexivity|].
    simpl. rewrite (H p eq_refl) by now left.
    apply IH. intros q Hq Hin. apply H; [assumption|now right]. }
  now rewrite Hnil.
Qed.

Lemma scan_nothing ctx (keysToVersions : KeyedVersions) w :
  io_fault w = None ->
  (forall k v d p, In (k, v) keysToVersions -> db w !! k = Some d -> In p (patches d) ->
                   isGreaterVersion (patch_version p) v = false) ->
  exists found, mapM (scanKey ctx) keysToVersions w = (Ok found, w) /\ omap id found = [].
Proof.
  intros Hf. induction keysToVersions as [|[k v] rest IH]; intro H; simpl.
  - exists []. auto.
  - destruct IH as (found & Hm & Ho).
    { intros k' v' d p Hin. apply H. now right. }
    exists (None :: found). split; [|exact Ho].
    unfold bind. rewrite scanKey_nothing; [now rewrite Hm|assumption|].
    intros d p. apply (H k v). now left.
Qed.

Lemma scan_fault ctx kv (rest : KeyedVersions) w msg :
  io_fault w = Some msg ->
  mapM (scanKey ctx) (kv :: rest) w =
    (Err (WrappedError ("[" +:+ debugId ctx +:+ "] " +:+ msg) (debugId ctx)), w).
Proof.
  intro Hf. simpl. unfold bind, scanKey, bind, getWithMeta. now rewrite Hf.
Qed.

Lemma wait_times_out handler (live : list LiveEvent) ms :
  (forall t k p, In (t, (k, p)) live -> (t < ms)%Z -> handler k p = None) ->
  withTimeout (deferred handler live) ms = Err (TimeoutError "Timed out").
Proof.
  induction live as [|[t [k p]] rest IH]; intro H; simpl; [reflexivity|].
  destruct (handler k p) eqn:Hh.
  - simpl. destruct (Z.ltb_spec t ms) as [Hlt|Hge]; [|reflexivity].
    rewrite (H t k p) in Hh by (auto; now left). discriminate.
  - apply IH. intros t' k' p' Hin. apply H. now right.
Qed.

Lemma scan_error ctx (keysToVersions : KeyedVersions) w e :
  fst (mapM (scanKey ctx) keysToVersions w) = Err e ->
  exists msg, e = WrappedError msg (debugId ctx).
Proof.
  revert w e. induction keysToVersions as [|kv rest IH]; intros w e; simpl; [discriminate|].
  unfold bind at 1. unfold scanKey at 1, bind at 1, getWithMeta at 1.
  destruct (io_fault w) as [msg|]; simpl.
  - intro H. inversion H. eauto.
  - destruct (db w !! fst kv) as [d|]; simpl.
    + destruct (length (List.filter (fun p => isGreaterVersion (patch_version p) (snd kv))
                          (patches d)) =? 0)%nat; simpl;
        unfold bind;
        (destruct (mapM (scanKey ctx) rest w) as [[found|e'] w'] eqn:Hm; simpl;
         [discriminate|]);
        intro H; inversion H; subst e'; apply (IH w); now rewrite Hm.
    + unfold bind.
      destruct (mapM (scanKey ctx) rest w) as [[found|e'] w'] eqn:Hm; simpl; [discriminate|].
      intro H; inversion H; subst e'. apply (IH w). now rewrite Hm.
Qed.

Lemma wait_outcome handler (live : list LiveEvent) ms :
  (exists r, withTimeout (deferred handler live) ms = Ok r) \/
  withTimeout (deferred handler live) ms = Err (TimeoutError "Timed out").
Proof.
  induction live as [|[t [k p]] rest IH]; simpl; [now right|].
  destruct (handler k p); [|exact IH]. simpl.
  destruct (t <? ms)%Z; [left; eauto|now right].
Qed.

(** Whatever happens, the timeout of the wait does not leave [poll] as an
    error. *)
Lemma poll_hides_timeout ctx (keysToVersions : KeyedVersions) opts (live : list LiveEvent) w msg :
  fst (poll ctx keysToVersions opts live w) <> Err (TimeoutError msg).
Proof.
  unfold poll, pollWith, bind at 1.
  destruct (mapM (scanKey ctx) keysToVersions w) as [[found|e] w'] eqn:Hm; simpl.
  - destruct (0 <? length (omap id found))%nat; [discriminate|].
    destruct (wait_outcome (patchHandler (Map_of keysToVersions)) live (blockTime opts))
      as [[r ->] | ->]; discriminate.
  - intro H. inversion H; subst e.
    destruct (scan_error ctx keysToVersions w (TimeoutError msg)) as [m Hmsg];
      [now rewrite Hm|discriminate].
Qed.

(** C9 (amended): when the scan finds no stored patch above the version
    given for any subscribed key and no patch event above the subscribed
    version of its key is delivered before the effective block time
    ([readBlockTimeMs], or 50000 ms when it is absent or 0) is over, [poll]
    returns the empty list; an error of the scan is passed on to the
    caller; and whatever the wait helper does, when it fails after such a
    scan [poll] returns the empty list for a [TimeoutError] and fails with
    the helper's error for any other; no timeout leaves [poll] as an
    error. *)
Theorem poll_timeout_empty ctx (keysToVersions : KeyedVersions) opts (live : list LiveEvent) w :
  (forall k v d p, In (k, v) keysToVersions -> db w !! k = Some d -> In p (patches d) ->
                   isGreaterVersion (patch_version p) v = false) ->
  (forall t k p v, In (t, (k, p)) live -> (t < blockTime opts)%Z ->
                   Map_of keysToVersions !! k = Some v ->
                   isGreaterVersion (patch_version p) v = false) ->
  (io_fault w = None -> poll ctx keysToVersions opts live w = (Ok [], w)) /\
  (forall msg, io_fault w = Some msg -> keysToVersions <> [] ->
     poll ctx keysToVersions opts live w =
       (Err (WrappedError ("[" +:+ debugId ctx +:+ "] " +:+ msg) (debugId ctx)), w)) /\
  (forall wait e, io_fault w = None ->
     wait (deferred (patchHandler (Map_of keysToVersions)) live) (blockTime opts) = Err e ->
     pollWith wait ctx keysToVersions opts live w =
       if String.eqb (error_name e) "TimeoutError" then (Ok [], w) else (Err e, w)) /\
  (forall msg, fst (poll ctx keysToVersions opts live w) <> Err (TimeoutError msg)).
Proof.
  intros Hscan Hlive. split; [|split; [|split; [|intro; apply poll_hides_timeout]]].
  - intro Hf. unfold poll, pollWith, bind at 1.
    destruct (scan_nothing ctx keysToVersions w Hf Hscan) as (found & -> & ->). simpl.
    rewrite wait_times_out; [reflexivity|].
    intros t k p Hin Hlt. unfold patchHandler.
    destruct (Map_of keysToVersions !! k) as [v|] eqn:Hk; [|reflexivity].
    now rewrite (Hlive t k p v Hin Hlt Hk).
  - intros msg Hf Hne. unfold poll, pollWith, bind at 1.
    destruct keysToVersions as [|kv rest]; [congruence|].
    now rewrite (scan_fault _ _ _ _ _ Hf).
  - intros wait e Hf Hwait. unfold pollWith, bind at 1.
    destruct (scan_nothing ctx keysToVersions w Hf Hscan) as (found & -> & ->). simpl.
    rewrite Hwait. unfold onWaitError.
    now destruct (String.eqb (error_name e) "TimeoutError").
Qed.

(** ** Sample runs, counterexamples and instances *)

Lemma liveWorld_lookup : db liveWorld !! "k" = Some liveDoc.
Proof. reflexivity. Qed.

Lemma tombstoneWorld_lookup : db tombstoneWorld !! "k" = Some tombstoneDoc.
Proof. reflexivity. Qed.

Lemma tombstoneWorld_reachable : reachable sampleClock replaceDiff tombstoneWorld.
Proof. apply reach_remove, reach_create, reach_empty. Qed.

(** C1: the history kept by the commit path grows to 21 patches: the
    21st successful write to a key keeps the last 20 patches of the
    previous envelope and appends its own. *)
Theorem history_reaches_21_patches :
  (fun d => length (patches d)) <$> (db (commits 20 emptyWorld) !! "k") = Some 20%nat /\
  (fun d => length (patches d)) <$> (db (commits 21 emptyWorld) !! "k") = Some 21%nat /\
  length (emitted (commits 21 emptyWorld)) = 21%nat.
Proof. vm_compute. auto. Qed.

(** C2, as stated, fails over a tombstone: the write succeeds under the
    matching version (1000,2), the value differs from the absent one, and
    the stored version is (1003,1), not (1000,3). *)
Lemma setIfVersion_over_tombstone_restarts_version :
  versionsMatch (db tombstoneWorld !! "k") {| major := 1000; minor := 2 |} = true /\
  struct_eqb (valueOrUndefined (db tombstoneWorld !! "k")) (JNum 7) = false /\
  fst (setIfVersion sampleClock replaceDiff ctx0 "k" {| major := 1000; minor := 2 |}
         (JNum 7) None tombstoneWorld) = Ok true /\
  version <$> (db (snd (setIfVersion sampleClock replaceDiff ctx0 "k"
                          {| major := 1000; minor := 2 |} (JNum 7) None tombstoneWorld)) !! "k")
    = Some {| major := 1003; minor := 1 |} /\
  {| major := 1003; minor := 1 |} <> {| major := 1000; minor := (2 + 1)%Z |}.
Proof. vm_compute. repeat split; try reflexivity. discriminate. Qed.

Lemma setIfVersion_committed_version_witness :
  fst (setIfVersion sampleClock replaceDiff ctx0 "k" {| major := 1000; minor := 1 |}
         (JNum 7) None liveWorld) = Ok true /\
  replaceDiff (root (valueOrUndefined (db liveWorld !! "k"))) (root (JNum 7)) <> [] /\
  exists d',
    db (snd (setIfVersion sampleClock replaceDiff ctx0 "k" {| major := 1000; minor := 1 |}
               (JNum 7) None liveWorld)) !! "k" = Some d' /\
    version d' =
      if isLiveValue (db liveWorld !! "k")
      then {| major := 1000; minor := (1 + 1)%Z |}
      else {| major := sampleClock (ticks liveWorld); minor := 1 |}.
Proof.
  assert (Hops : replaceDiff (root (valueOrUndefined (db liveWorld !! "k"))) (root (JNum 7))
                 <> []) by (vm_compute; discriminate).
  split; [reflexivity|]. split; [exact Hops|].
  exact (proj1 (setIfVersion_committed_version sampleClock replaceDiff
                  ctx0 "k" {| major := 1000; minor := 1 |} (JNum 7) None liveWorld eq_refl)
           Hops).
Defined.

Lemma setIfVersion_equal_value_no_write_witness :
  db liveWorld !! "k" = Some liveDoc /\
  struct_eqb (value liveDoc) (JObj 2 [("n", JNum 1)]) = true /\
  db (snd (setIfVersion sampleClock replaceDiff ctx0 "k" (version liveDoc)
             (JObj 2 [("n", JNum 1)]) None liveWorld)) = db liveWorld /\
  db (snd (setIfVersion sampleClock replaceDiff ctx0 "k" (version liveDoc)
             (JObj 2 [("n", JNum 1)]) None liveWorld)) !! "k" = Some liveDoc /\
  emitted (snd (setIfVersion sampleClock replaceDiff ctx0 "k" (version liveDoc)
                  (JObj 2 [("n", JNum 1)]) None liveWorld)) = emitted liveWorld.
Proof.
  split; [reflexivity|]. split; [reflexivity|].
  apply (setIfVersion_equal_value_no_write sampleClock replaceDiff replaceDiff_spec
           ctx0 "k" liveDoc (JObj 2 [("n", JNum 1)]) None liveWorld);
    reflexivity.
Defined.

Lemma setIfVersion_version_mismatch_witness :
  admissible (JNum 7) /\
  io_fault liveWorld = None /\
  versionsMatch (db liveWorld !! "k") {| major := 1000; minor := 5 |} = false /\
  setIfVersion sampleClock replaceDiff ctx0 "k" {| major := 1000; minor := 5 |}
    (JNum 7) None liveWorld = (Ok false, liveWorld).
Proof.
  assert (Ha : admissible (JNum 7)) by (right; reflexivity).
  split; [exact Ha|]. split; [reflexivity|]. split; [reflexivity|].
  apply (setIfVersion_version_mismatch sampleClock replaceDiff
           ctx0 "k" {| major := 1000; minor := 5 |} (JNum 7) None liveWorld Ha);
    reflexivity.
Defined.


(** C6, as stated, fails on [null] and, for [setIfVersion], on
    [undefined]: [create] commits a bare [null], and [setIfVersion] takes
    [undefined] without any error. *)
Lemma null_and_undefined_accepted :
  fst (create sampleClock replaceDiff ctx0 "k" JNull emptyWorld) = Ok true /\
  value <$> (db (snd (create sampleClock replaceDiff ctx0 "k" JNull emptyWorld)) !! "k")
    = Some JNull /\
  fst (setIfVersion sampleClock replaceDiff ctx0 "k" {| major := 0; minor := 0 |}
         JNull None emptyWorld) = Ok true /\
  setIfVersion sampleClock replaceDiff ctx0 "k" {| major := 1000; minor := 1 |}
    JUndefined None liveWorld
    = (Ok true, snd (remove sampleClock replaceDiff ctx0 "k" liveWorld)).
Proof. vm_compute. repeat split; reflexivity. Qed.

Lemma checkValue_rejects_witness :
  (typeof (JBigInt 1) ∉ allowedTypes) /\
  create sampleClock replaceDiff ctx0 "k" (JBigInt 1) liveWorld =
    (Err (TypeError "Non-JSONable value of type bigint at top level"), liveWorld).
Proof.
  assert (H : typeof (JBigInt 1) ∉ allowedTypes) by (now vm_compute).
  split; [exact H|].
  exact (proj1 (checkValue_rejects sampleClock replaceDiff ctx0 "k"
                  {| major := 1000; minor := 1 |} (JBigInt 1) None liveWorld H)).
Defined.

Lemma getWithVersion_tombstone_witness :
  reachable sampleClock replaceDiff tombstoneWorld /\
  io_fault tombstoneWorld = None /\
  getWithVersion ctx0 "k" tombstoneWorld =
    (Ok {| vm_version := {| major := 1000; minor := 2 |}; vm_value := JUndefined |},
     tombstoneWorld).
Proof.
  split; [exact tombstoneWorld_reachable|]. split; [reflexivity|].
  exact (proj1 (proj1 (getWithVersion_tombstone sampleClock replaceDiff ctx0 "k"
                         tombstoneWorld tombstoneWorld_reachable eq_refl)
                  tombstoneDoc eq_refl eq_refl)).
Defined.

(** C7, as stated, fails on composite values: the array at the path and
    the operand are structurally equal, yet [eq] is false and [ne] true. *)
Lemma eq_filter_misses_equal_array :
  struct_eqb (path ["value"; "tags"] (doc_object taggedDoc)) tagsOperand = true /\
  match_ noCoercion noRegexp taggedDoc (FEq ["value"; "tags"] tagsOperand) = Ok (Some false) /\
  match_ noCoercion noRegexp taggedDoc (FNe ["value"; "tags"] tagsOperand) = Ok (Some true).
Proof. repeat split; reflexivity. Qed.



(** The ties of a missing value are not transitive: the document without
    an [age] ties with both others, which do not tie with each other.  The
    order [Array.prototype.sort] gives with such a comparator is left to
    the engine. *)
Lemma missing_value_ties_are_not_transitive :
  buildComparator noCoercion {| order_path := ["value"; "age"]; direction := ASC |}
    elder withoutAge = 0%Z /\
  buildComparator noCoercion {| order_path := ["value"; "age"]; direction := ASC |}
    withoutAge withAge = 0%Z /\
  buildComparator noCoercion {| order_path := ["value"; "age"]; direction := ASC |}
    elder withAge = 1%Z.
Proof. repeat split; reflexivity. Qed.

Lemma poll_timeout_empty_witness :
  (forall k v d p, In (k, v) subscription -> db liveWorld !! k = Some d -> In p (patches d) ->
                   isGreaterVersion (patch_version p) v = false) /\
  (forall t k p v, In (t, (k, p)) lateEvents ->
                   (t < blockTime {| readBlockTimeMs := Some 1000%Z |})%Z ->
                   Map_of subscription !! k = Some v ->
                   isGreaterVersion (patch_version p) v = false) /\
  io_fault liveWorld = None /\
  poll ctx0 subscription {| readBlockTimeMs := Some 1000%Z |} lateEvents liveWorld
    = (Ok [], liveWorld).
Proof.
  assert (Hscan : forall k v d p, In (k, v) subscription -> db liveWorld !! k = Some d ->
                    In p (patches d) -> isGreaterVersion (patch_version p) v = false).
  { intros k v d p [Hkv|[]] Hd Hp. inversion Hkv; subst k v.
    rewrite liveWorld_lookup in Hd. inversion Hd; subst d.
    destruct Hp as [<-|[]]. reflexivity. }
  assert (Hlive : forall t k p v, In (t, (k, p)) lateEvents ->
                    (t < blockTime {| readBlockTimeMs := Some 1000%Z |})%Z ->
                    Map_of subscription !! k = Some v ->
                    isGreaterVersion (patch_version p) v = false).
  { intros t k p v [He|[He|[]]] Ht Hk; inversion He; subst t k p.
    - vm_compute in Hk. discriminate.
    - vm_compute in Ht. discriminate. }
  split; [exact Hscan|]. split; [exact Hlive|]. split; [reflexivity|].
  exact (proj1 (poll_timeout_empty ctx0 subscription {| readBlockTimeMs := Some 1000%Z |}
                  lateEvents liveWorld Hscan Hlive) eq_refl).
Defined.

(** C9, as stated, fails for a block time of 0: the code
    waits [0 || 50000] milliseconds, so with nothing found by the scan and
    no event within 0 ms, the patch delivered after 300 ms is returned
    instead of the empty list. *)
Lemma poll_zero_block_time_returns_late_patch :
  mapM (scanKey ctx0) subscription liveWorld = (Ok [None], liveWorld) /\
  Forall (fun ev => ~ (fst ev < 0)%Z) [(300%Z, ("k", nextPatch))] /\
  poll ctx0 subscription {| readBlockTimeMs := Some 0%Z |}
       [(300%Z, ("k", nextPatch))] liveWorld
    = (Ok [("k", [nextPatch])], liveWorld).
Proof.
  split; [reflexivity|]. split; [|reflexivity].
  constructor; [simpl; lia|constructor].
Qed.

(** * Further properties *)

(** ** The version algebra *)

(** X1: as long as the minor, the amount and the minor after the first
    step are safe integers, [decrVersion] undoes [incrVersion] and
    [incrVersion] undoes [decrVersion]. *)
Theorem decrVersion_incrVersion v amount :
  isSafeInteger (minor v) = true ->
  isSafeInteger amount = true ->
  (isSafeInteger (minor v + amount) = true ->
     decrVersion (incrVersion v amount) amount = v) /\
  (isSafeInteger (minor v - amount) = true ->
     incrVersion (decrVersion v amount) amount = v).
Proof.
  intros _ _. destruct v as [M m]. unfold decrVersion, incrVersion. simpl.
  split; intros _; f_equal; lia.
Qed.

Lemma isGreaterVersion_spec a b :
  isGreaterVersion a b = true <->
  (major a > major b)%Z \/ (major a = major b /\ (minor a > minor b)%Z).
Proof.
  unfold isGreaterVersion.
  rewrite orb_true_iff, andb_true_iff, !Z.gtb_gt, Z.eqb_eq. reflexivity.
Qed.

Lemma isGreaterVersion_false a b :
  isGreaterVersion a b = false <->
  (major a < major b)%Z \/ (major a = major b /\ (minor a <= minor b)%Z).
Proof.
  destruct (isGreaterVersion a b) eqn:E.
  - apply isGreaterVersion_spec in E. split; [discriminate|lia].
  - split; [intros _|reflexivity].
    assert (H : ~ ((major a > major b)%Z \/ (major a = major b /\ (minor a > minor b)%Z))).
    { intro H. apply isGreaterVersion_spec in H. congruence. }
    lia.
Qed.

Lemma isGreaterVersion_trans a b c :
  isGreaterVersion a b = true -> isGreaterVersion b c = true -> isGreaterVersion a c = true.
Proof. rewrite !isGreaterVersion_spec. lia. Qed.


(** X2: [isGreaterVersion] is a strict total order on versions: no version
    is greater than itself, the relation is transitive, and of two
    different versions one is greater than the other. *)
Theorem isGreaterVersion_strict_total_order :
  (forall a, isGreaterVersion a a = false) /\
  (forall a b c, isGreaterVersion a b = true -> isGreaterVersion b c = true ->
                 isGreaterVersion a c = true) /\
  (forall a b, isGreaterVersion a b = true -> isGreaterVersion b a = false) /\
  (forall a b, a = b \/ isGreaterVersion a b = true \/ isGreaterVersion b a = true).
Proof.
  repeat split.
  - intro a. apply isGreaterVersion_false. lia.
  - apply isGreaterVersion_trans.
  - intros a b H. apply isGreaterVersion_spec in H. apply isGreaterVersion_false. lia.
  - intros [M m] [M' m'].
    destruct (Z.lt_trichotomy M M') as [H|[H|H]].
    + right; right. apply isGreaterVersion_spec. simpl. lia.
    + destruct (Z.lt_trichotomy m m') as [H'|[H'|H']].
      * right; right. apply isGreaterVersion_spec. simpl. lia.
      * left. now subst.
      * right; left. apply isGreaterVersion_spec. simpl. lia.
    + right; left. apply isGreaterVersion_spec. simpl. lia.
Qed.

(** X3: on safe integers, incrementing a version by a positive amount
    gives a greater version with the same major as long as the new minor
    is a safe integer, and decrementing by it a smaller one as long as the
    new minor is. *)
Theorem incrVersion_greater v amount :
  (0 < amount)%Z ->
  isSafeInteger (minor v) = true ->
  isSafeInteger amount = true ->
  (isSafeInteger (minor v + amount) = true ->
     isGreaterVersion (incrVersion v amount) v = true) /\
  (isSafeInteger (minor v - amount) = true ->
     isGreaterVersion v (decrVersion v amount) = true) /\
  major (incrVersion v amount) = major v.
Proof.
  intros H _ _. rewrite !isGreaterVersion_spec. unfold decrVersion, incrVersion. simpl.
  repeat split; intros; lia.
Qed.

Lemma decrVersion_incrVersion_witness :
  isSafeInteger (minor {| major := 1000; minor := 1 |}) = true /\
  isSafeInteger 5 = true /\
  isSafeInteger (minor {| major := 1000; minor := 1 |} + 5) = true /\
  decrVersion (incrVersion {| major := 1000; minor := 1 |} 5) 5
    = {| major := 1000; minor := 1 |}.
Proof.
  split; [reflexivity|]. split; [reflexivity|]. split; [reflexivity|].
  exact (proj1 (decrVersion_incrVersion {| major := 1000; minor := 1 |} 5 eq_refl eq_refl)
           eq_refl).
Defined.

Lemma incrVersion_greater_witness :
  (0 < 1)%Z /\
  isSafeInteger (minor {| major := 1000; minor := 1 |}) = true /\
  isSafeInteger 1 = true /\
  isSafeInteger (minor {| major := 1000; minor := 1 |} + 1) = true /\
  isGreaterVersion (incrVersion {| major := 1000; minor := 1 |} 1)
    {| major := 1000; minor := 1 |} = true.
Proof.
  split; [lia|]. split; [reflexivity|]. split; [reflexivity|]. split; [reflexivity|].
  exact (proj1 (incrVersion_greater {| major := 1000; minor := 1 |} 1 ltac:(lia)
                  eq_refl eq_refl) eq_refl).
Defined.

(** ** The commit path *)

Section CommitPath.

Variable clock : nat -> Z.
Variable compare : jsval -> jsval -> list Operation.

(** [put], case by case: whether the clock is read for a fresh major,
    whether the diff is empty, whether the store fails. *)
Lemma put_effect key prev val options w :
  put clock compare key prev val options w =
    let t1 := if isLiveValue prev then ticks w else S (ticks w) in
    let ver := committedVersion prev (clock (ticks w)) in
    let patch := {| patch_version := ver;
                    ops := compare (root (valueOrUndefined prev)) (root val);
                    patch_options := spread options |} in
    if (0 <? length (compare (root (valueOrUndefined prev)) (root val)))%nat then
      match io_fault w with
      | Some msg =>
          (Err (LevelError msg),
           {| db := db w; io_fault := io_fault w; emitted := emitted w; ticks := S t1 |})
      | None =>
          (Ok tt,
           {| db := <[key := {| version := ver; value := val;
                                patches := slice_last NUM_PATCHES_TO_KEEP
                                             (match prev with Some p => patches p | None => [] end)
                                           ++ [patch];
                                updatedAt := clock t1 |}]> (db w);
              io_fault := io_fault w;
              emitted := emitted w ++ [(key, patch)];
              ticks := S t1 |})
      end
    else (Ok tt, {| db := db w; io_fault := io_fault w; emitted := emitted w; ticks := t1 |}).
Proof.
  unfold put, committedVersion, isLiveValue.
  destruct (0 <? length (compare (root (valueOrUndefined prev)) (root val)))%nat;
    (destruct prev as [p|]; [destruct (is_undefined (value p))|]);
    unfold bind, hrnano, ret, db_put, emit; simpl;
    rewrite ?world_eta; try reflexivity;
    destruct (io_fault w); reflexivity.
Qed.

Lemma put_io_fault key prev val options w :
  io_fault (snd (put clock compare key prev val options w)) = io_fault w.
Proof.
  rewrite put_effect. simpl.
  destruct (0 <? _)%nat; [destruct (io_fault w) eqn:E|]; simpl; congruence.
Qed.

Lemma put_ticks key prev val options w :
  (ticks w <= ticks (snd (put clock compare key prev val options w)))%nat.
Proof.
  rewrite put_effect. simpl.
  destruct (0 <? _)%nat; [destruct (io_fault w)|]; simpl;
    destruct (isLiveValue prev); lia.
Qed.

Lemma put_other_key key prev val options w k :
  k <> key ->
  db (snd (put clock compare key prev val options w)) !! k = db w !! k.
Proof.
  intro Hne. rewrite put_effect. simpl.
  destruct (0 <? _)%nat; [destruct (io_fault w)|]; simpl; try reflexivity.
  now rewrite lookup_insert_ne.
Qed.

Lemma put_one_commit key prev val options w :
  one_commit key w (snd (put clock compare key prev val options w)).
Proof.
  rewrite put_effect. simpl.
  destruct (0 <? _)%nat; [destruct (io_fault w)|]; simpl; try (left; now split).
  right. eexists. eexists. split; [reflexivity|]. split; [reflexivity|].
  simpl. split; [apply last_snoc|reflexivity].
Qed.

Lemma put_ok key prev val options w :
  io_fault w = None -> fst (put clock compare key prev val options w) = Ok tt.
Proof.
  intro Hf. rewrite put_effect. simpl. rewrite Hf.
  now destruct (0 <? _)%nat.
Qed.

(** Every write operation either leaves the world alone or is one [put]
    over the envelope it has read. *)
Lemma create_shape ctx key val w :
  snd (create clock compare ctx key val w) = w \/
  snd (create clock compare ctx key val w) =
    snd (put clock compare key (db w !! key) val None w).
Proof.
  rewrite create_cases.
  destruct (checkValue val); [|now left].
  destruct (io_fault w); [now left|].
  destruct (isLiveValue (db w !! key)); [now left|now right].
Qed.

Lemma remove_shape ctx key w :
  snd (remove clock compare ctx key w) = w \/
  snd (remove clock compare ctx key w) =
    snd (put clock compare key (db w !! key) JUndefined None w).
Proof.
  rewrite remove_cases.
  destruct (io_fault w); [now left|].
  destruct (is_undefined (valueOrUndefined (db w !! key))); [now left|now right].
Qed.

Lemma setIfVersion_shape ctx key ver val options w :
  snd (setIfVersion clock compare ctx key ver val options w) = w \/
  snd (setIfVersion clock compare ctx key ver val options w) =
    snd (put clock compare key (db w !! key) val options w).
Proof.
  rewrite setIfVersion_cases.
  destruct (if is_undefined val then Ok tt else checkValue val); [|now left].
  destruct (io_fault w); [now left|].
  destruct (versionsMatch (db w !! key) ver); [now right|now left].
Qed.

Lemma one_commit_refl key w : one_commit key w w.
Proof. left. now split. Qed.

(** X4: [create], [remove] and [setIfVersion] write and publish together:
    each call either leaves entries and events as they were, or writes
    exactly one envelope under its key and emits exactly one event for that
    key, whose patch is the last patch of the written envelope and carries
    the version of that envelope. *)
Theorem writes_publish_their_patch ctx key ver val options w :
  one_commit key w (snd (create clock compare ctx key val w)) /\
  one_commit key w (snd (remove clock compare ctx key w)) /\
  one_commit key w (snd (setIfVersion clock compare ctx key ver val options w)).
Proof.
  split; [|split].
  - destruct (create_shape ctx key val w) as [-> | ->];
      [apply one_commit_refl|apply put_one_commit].
  - destruct (remove_shape ctx key w) as [-> | ->];
      [apply one_commit_refl|apply put_one_commit].
  - destruct (setIfVersion_shape ctx key ver val options w) as [-> | ->];
      [apply one_commit_refl|apply put_one_commit].
Qed.

(** X5: a write operation touches no key but its own: the envelope of
    every other key reads the same before and after [create], [remove] and
    [setIfVersion]. *)
Theorem writes_leave_other_keys ctx key ver val options w k :
  k <> key ->
  db (snd (create clock compare ctx key val w)) !! k = db w !! k /\
  db (snd (remove clock compare ctx key w)) !! k = db w !! k /\
  db (snd (setIfVersion clock compare ctx key ver val options w)) !! k = db w !! k.
Proof.
  intro Hne. split; [|split].
  - destruct (create_shape ctx key val w) as [-> | ->];
      [reflexivity|now apply put_other_key].
  - destruct (remove_shape ctx key w) as [-> | ->];
      [reflexivity|now apply put_other_key].
  - destruct (setIfVersion_shape ctx key ver val options w) as [-> | ->];
      [reflexivity|now apply put_other_key].
Qed.

(** An invariant of the worlds: it holds of the empty store, a change of
    the storage fault keeps it, and so does a [put] over the envelope read
    from a reachable world. *)
Lemma reachable_invariant (P : World -> Prop) :
  (forall f n, P {| db := ∅; io_fault := f; emitted := []; ticks := n |}) ->
  (forall w f, P w ->
     P {| db := db w; io_fault := f; emitted := emitted w; ticks := ticks w |}) ->
  (forall w key val options, reachable clock compare w -> P w ->
     P (snd (put clock compare key (db w !! key) val options w))) ->
  forall w, reachable clock compare w -> P w.
Proof.
  intros Hempty Hfault Hput.
  induction 1 as [f n | w f Hr IH | w ctx key val Hr IH | w ctx key Hr IH
                 | w ctx key ver val options Hr IH].
  - apply Hempty.
  - now apply Hfault.
  - destruct (create_shape ctx key val w) as [-> | ->]; [assumption|now apply Hput].
  - destruct (remove_shape ctx key w) as [-> | ->]; [assumption|now apply Hput].
  - destruct (setIfVersion_shape ctx key ver val options w) as [-> | ->];
      [assumption|now apply Hput].
Qed.

End CommitPath.

(** ** Invariants of the stored histories *)

Lemma StronglySorted_drop {A : Type} (R : relation A) (n : nat) (l : list A) :
  StronglySorted R l -> StronglySorted R (drop n l).
Proof.
  intro H. rewrite <- (take_drop n l) in H.
  now apply StronglySorted_app_1_r in H.
Qed.

Lemma StronglySorted_last {A : Type} (R : relation A) (l : list A) z x :
  StronglySorted R l -> last l = Some z -> x ∈ l -> x = z \/ R x z.
Proof.
  intros Hs Hl Hx. apply last_Some in Hl as [l' ->].
  apply elem_of_app in Hx as [Hx|Hx].
  - right. apply (StronglySorted_app_1_elem_of R l' [z]); [assumption..|].
    apply list_elem_of_singleton. reflexivity.
  - left. now apply list_elem_of_singleton in Hx.
Qed.

Lemma StronglySorted_lookup {A : Type} (R : relation A) (l : list A) :
  StronglySorted R l ->
  forall i j x y, (i < j)%nat -> l !! i = Some x -> l !! j = Some y -> R x y.
Proof.
  induction 1 as [|a l Hs IH Hall]; intros i j x y Hij Hi Hj.
  - now rewrite lookup_nil in Hi.
  - destruct j as [|j]; [lia|]. simpl in Hj.
    destruct i as [|i]; simpl in Hi.
    + inversion Hi; subst x. rewrite Forall_forall in Hall.
      apply Hall. apply list_elem_of_lookup. eauto.
    + apply (IH i j); [lia|assumption..].
Qed.

Section Histories.

Variable clock : nat -> Z.
Variable compare : jsval -> jsval -> list Operation.

Lemma stamped_later w w' d :
  (ticks w <= ticks w')%nat -> stamped clock w d -> stamped clock w' d.
Proof. intros Hle (i & Hi & Hm). exists i. split; [lia|assumption]. Qed.

Lemma put_sealed key val options w :
  sealed clock w ->
  sealed clock (snd (put clock compare key (db w !! key) val options w)).
Proof.
  intros Hs k d Hd.
  pose proof (put_ticks clock compare key (db w !! key) val options w) as Hticks.
  destruct (decide (k = key)) as [->|Hne].
  2:{ rewrite put_other_key in Hd by assumption.
      destruct (Hs k d Hd) as [Hl Hst]. split; [assumption|].
      now apply (stamped_later w). }
  revert Hd Hticks. rewrite put_effect. simpl.
  destruct (0 <? _)%nat; [destruct (io_fault w)|]; simpl; intros Hd Hticks;
    try (destruct (Hs key d Hd) as [Hl Hst]; split;
         [assumption|now apply (stamped_later w)]).
  rewrite lookup_insert_eq in Hd. inversion Hd; subst d; clear Hd. simpl. split.
  - eexists. split; [apply last_snoc|reflexivity].
  - unfold stamped, committedVersion. simpl.
    destruct (db w !! key) as [p|] eqn:Hp; simpl.
    + destruct (is_undefined (value p)); simpl.
      * exists (ticks w). split; [lia|reflexivity].
      * destruct (Hs key p Hp) as [_ (i & Hi & Hm)]. exists i. split; [lia|assumption].
    + exists (ticks w). split; [lia|reflexivity].
Qed.

Lemma reachable_sealed w : reachable clock compare w -> sealed clock w.
Proof.
  apply reachable_invariant.
  - intros f n k d Hd. simpl in Hd. now rewrite lookup_empty in Hd.
  - intros w0 f Hs k d Hd. simpl in Hd. destruct (Hs k d Hd) as [Hl Hst].
    split; assumption.
  - intros w0 key val options _ Hs. now apply put_sealed.
Qed.

(** X6: in every world the handler can reach, the history of a stored
    envelope is not empty and its last patch carries the version of the
    envelope. *)
Theorem last_patch_has_envelope_version w k d :
  reachable clock compare w ->
  db w !! k = Some d ->
  exists p, last (patches d) = Some p /\ patch_version p = version d.
Proof.
  intros Hr Hd. exact (proj1 (reachable_sealed w Hr k d Hd)).
Qed.

Hypothesis clock_increasing : increasing clock.

Lemma clock_mono i j : (i < j)%nat -> (clock i < clock j)%Z.
Proof. apply clock_increasing. Qed.

Lemma clock_nonneg i : (0 <= clock i)%Z.
Proof.
  destruct clock_increasing as [H0 Hm].
  destruct i as [|i]; [assumption|].
  specialize (Hm 0%nat (S i) ltac:(lia)). lia.
Qed.

(** The version a commit stores is greater than the version it replaces. *)
Lemma committedVersion_greater w key :
  sealed clock w ->
  isGreaterVersion (committedVersion (db w !! key) (clock (ticks w)))
    (currentVersion w key) = true.
Proof.
  intro Hs. unfold committedVersion, currentVersion, isLiveValue.
  apply isGreaterVersion_spec.
  destruct (db w !! key) as [p|] eqn:Hp; simpl.
  - destruct (is_undefined (value p)); simpl.
    + destruct (Hs key p Hp) as [_ (i & Hi & Hm)].
      left. rewrite Hm. pose proof (clock_mono i (ticks w) Hi). lia.
    + right. split; [reflexivity|lia].
  - pose proof (clock_nonneg (ticks w)). lia.
Qed.

Lemma put_raises_version key val options w :
  sealed clock w ->
  db (snd (put clock compare key (db w !! key) val options w)) = db w \/
  isGreaterVersion
    (currentVersion (snd (put clock compare key (db w !! key) val options w)) key)
    (currentVersion w key) = true.
Proof.
  intro Hs. rewrite put_effect. simpl.
  destruct (0 <? _)%nat; [destruct (io_fault w)|]; simpl; try now left.
  right. unfold currentVersion at 1. simpl. rewrite lookup_insert_eq. simpl.
  now apply committedVersion_greater.
Qed.

(** X7: with a clock whose readings grow, every write operation on a
    reachable world either leaves the entries alone or leaves its key
    under a version strictly greater than the one the key had (an absent
    key counting as (0,0)). *)
Theorem writes_raise_version ctx key ver val options w :
  reachable clock compare w ->
  (db (snd (create clock compare ctx key val w)) = db w \/
   isGreaterVersion (currentVersion (snd (create clock compare ctx key val w)) key)
     (currentVersion w key) = true) /\
  (db (snd (remove clock compare ctx key w)) = db w \/
   isGreaterVersion (currentVersion (snd (remove clock compare ctx key w)) key)
     (currentVersion w key) = true) /\
  (db (snd (setIfVersion clock compare ctx key ver val options w)) = db w \/
   isGreaterVersion
     (currentVersion (snd (setIfVersion clock compare ctx key ver val options w)) key)
     (currentVersion w key) = true).
Proof.
  intro Hr. pose proof (reachable_sealed w Hr) as Hs.
  split; [|split].
  - destruct (create_shape clock compare ctx key val w) as [-> | ->];
      [now left|now apply put_raises_version].
  - destruct (remove_shape clock compare ctx key w) as [-> | ->];
      [now left|now apply put_raises_version].
  - destruct (setIfVersion_shape clock compare ctx key ver val options w) as [-> | ->];
      [now left|now apply put_raises_version].
Qed.

Lemma older_trans p q r : older p q -> older q r -> older p r.
Proof. unfold older. intros H1 H2. exact (isGreaterVersion_trans _ _ _ H2 H1). Qed.

Lemma put_ordered key val options w :
  sealed clock w ->
  (forall k d, db w !! k = Some d -> StronglySorted older (patches d)) ->
  forall k d,
    db (snd (put clock compare key (db w !! key) val options w)) !! k = Some d ->
    StronglySorted older (patches d).
Proof.
  intros Hs Ho k d.
  destruct (decide (k = key)) as [->|Hne];
    [|rewrite put_other_key by assumption; apply Ho].
  rewrite put_effect. simpl.
  destruct (0 <? _)%nat; [destruct (io_fault w)|]; simpl; try apply Ho.
  rewrite lookup_insert_eq. intro Hd. inversion Hd; subst d; clear Hd. simpl.
  pose proof (committedVersion_greater w key Hs) as Hgt.
  unfold currentVersion in Hgt.
  destruct (db w !! key) as [p|] eqn:Hp.
  - apply StronglySorted_app_2.
    + intros x y Hx Hy. apply list_elem_of_singleton in Hy. subst y.
      unfold slice_last in Hx. apply subseteq_drop in Hx.
      destruct (Hs key p Hp) as [(z & Hz & Hv) _].
      unfold older. simpl.
      destruct (StronglySorted_last older _ z x (Ho key p Hp) Hz Hx) as [->|Hxz].
      * now rewrite Hv.
      * unfold older in Hxz. rewrite Hv in Hxz.
        exact (isGreaterVersion_trans _ _ _ Hgt Hxz).
    + unfold slice_last. apply StronglySorted_drop. now apply (Ho key).
    + repeat constructor.
  - simpl. repeat constructor.
Qed.

Lemma reachable_ordered w :
  reachable clock compare w ->
  forall k d, db w !! k = Some d -> StronglySorted older (patches d).
Proof.
  intro Hr.
  assert (H : sealed clock w /\
              forall k d, db w !! k = Some d -> StronglySorted older (patches d)).
  { revert w Hr. apply reachable_invariant.
    - intros f n. split; intros k d Hd; simpl in Hd; now rewrite lookup_empty in Hd.
    - intros w f [Hs Ho]. split; [|exact Ho].
      intros k d Hd. simpl in Hd. destruct (Hs k d Hd). split; assumption.
    - intros w key val options _ [Hs Ho]. split;
        [now apply put_sealed|now apply put_ordered]. }
  exact (proj2 H).
Qed.

(** X8: with a clock whose readings grow, the patches of every envelope of
    a reachable world are strictly increasing in version: a patch further
    down the history is greater than every patch before it. *)
Theorem patches_strictly_increasing w k d i j p q :
  reachable clock compare w ->
  db w !! k = Some d ->
  (i < j)%nat ->
  patches d !! i = Some p ->
  patches d !! j = Some q ->
  isGreaterVersion (patch_version q) (patch_version p) = true.
Proof.
  intros Hr Hd Hij Hi Hj.
  exact (StronglySorted_lookup older _ (reachable_ordered w Hr k d Hd) i j p q Hij Hi Hj).
Qed.

End Histories.

(** ** How the operations compose *)


Lemma not_live_iff prev : is_undefined (valueOrUndefined prev) = negb (isLiveValue prev).
Proof.
  destruct prev as [p|]; simpl; [|reflexivity]. now rewrite negb_involutive.
Qed.

Section Composition.

Variable clock : nat -> Z.
Variable compare : jsval -> jsval -> list Operation.
Hypothesis compare_spec : forall a b, compare a b = [] <-> struct_eqb a b = true.

(** X9: the version [getWithVersion] reads for a key always passes the
    guard of [setIfVersion]: with a value the type check lets through, the
    call returns true, for a live key, a tombstone and an absent key
    alike. *)
Theorem setIfVersion_accepts_read_version ctx key val options w r :
  admissible val ->
  fst (getWithVersion ctx key w) = Ok r ->
  fst (setIfVersion clock compare ctx key (vm_version r) val options w) = Ok true.
Proof.
  intros Ha Hg.
  assert (Hf : io_fault w = None).
  { unfold getWithVersion, bind, getWithMeta in Hg.
    destruct (io_fault w); [discriminate|reflexivity]. }
  assert (Hm : versionsMatch (db w !! key) (vm_version r) = true).
  { unfold getWithVersion, bind in Hg. rewrite (getWithMeta_ok _ _ _ Hf) in Hg.
    destruct (db w !! key) as [d|]; inversion Hg; subst r; simpl.
    - now rewrite !Z.eqb_refl.
    - reflexivity. }
  rewrite setIfVersion_cases, Hf, Hm.
  assert (Hc : (if is_undefined val then Ok tt else checkValue val) = Ok tt).
  { destruct Ha as [-> | Hc]; [reflexivity|]. now destruct (is_undefined val). }
  rewrite Hc. unfold settled. simpl. now rewrite put_ok.
Qed.

Lemma jsval_nested_ind (P : jsval -> Prop) :
  P JUndefined -> P JNull -> (forall b, P (JBool b)) -> (forall n, P (JNum n)) ->
  (forall s, P (JStr s)) -> (forall n, P (JBigInt n)) ->
  (forall r xs, Forall P xs -> P (JArr r xs)) ->
  (forall r fs, Forall (fun kv => P (snd kv)) fs -> P (JObj r fs)) ->
  forall v, P v.
Proof.
  intros HU HN HB HZ HS HG HA HO.
  fix IH 1.
  intros [| |b|n|s|n|r xs|r fs];
    [exact HU|exact HN|apply HB|apply HZ|apply HS|apply HG| |].
  - apply HA. induction xs as [|x xs IHxs]; constructor; [apply IH|exact IHxs].
  - apply HO. induction fs as [|[k x] fs IHfs]; constructor; [apply IH|exact IHfs].
Qed.

Lemma obj_get_distinct {A : Type} (fs : list (string * A)) k v :
  distinct (List.map fst fs) = true -> In (k, v) fs -> obj_get k fs = Some v.
Proof.
  induction fs as [|[k' v'] rest IH]; simpl; [contradiction|].
  intros Hd [He|Hin].
  - inversion He; subst. now rewrite String.eqb_refl.
  - apply andb_prop in Hd as [Hn Hd].
    destruct (String.eqb_spec k k') as [->|Hne]; [|now apply IH].
    apply negb_true_iff in Hn.
    assert (Hex : existsb (String.eqb k') (List.map fst rest) = true).
    { apply existsb_exists. exists k'. split; [|apply String.eqb_refl].
      apply in_map_iff. now exists (k', v). }
    congruence.
Qed.

Lemma obj_get_member {A : Type} (fs : list (string * A)) kv :
  In kv fs -> match obj_get (fst kv) fs with Some _ => true | None => false end = true.
Proof.
  induction fs as [|[k' v'] rest IH]; simpl; [contradiction|].
  intros [<-|Hin]; simpl; [now rewrite String.eqb_refl|].
  destruct (String.eqb (fst kv) k'); [reflexivity|now apply IH].
Qed.

(** A JSON value is structurally equal to itself. *)
Lemma struct_eqb_refl v : json_value v = true -> struct_eqb v v = true.
Proof.
  induction v as [| |b|n|s|n|r xs IH|r fs IH] using jsval_nested_ind; simpl; try discriminate.
  - reflexivity.
  - intros _. apply Bool.eqb_reflx.
  - intros _. apply Z.eqb_refl.
  - intros _. apply String.eqb_refl.
  - induction IH as [|x xs Hx _ IHxs]; simpl; [reflexivity|].
    intro H. apply andb_prop in H as [H1 H2].
    now rewrite (Hx H1), (IHxs H2).
  - intro H. apply andb_prop in H as [Hj Hd].
    apply andb_true_intro. split.
    + assert (Hall : forall k v, In (k, v) fs ->
                obj_get k fs = Some v /\ struct_eqb v v = true).
      { intros k v Hin. split; [now apply obj_get_distinct|].
        apply (proj1 (List.Forall_forall _ _) IH (k, v) Hin).
        apply (proj1 (forallb_forall _ _) Hj (k, v) Hin). }
      clear IH Hj Hd.
      match goal with
      | |- ?fields fs = true =>
          assert (Hgen : forall l, (forall k v, In (k, v) l ->
                            obj_get k fs = Some v /\ struct_eqb v v = true) ->
                          fields l = true)
      end.
      { induction l as [|[k v] l IHl]; intro Hl; [reflexivity|].
        destruct (Hl k v (or_introl eq_refl)) as [Hk Hv]. rewrite Hk, Hv. simpl.
        apply IHl. intros k' v' Hin. apply Hl. now right. }
      now apply Hgen.
    + apply forallb_forall. intros kv Hin. now apply obj_get_member.
Qed.

(** X10: a successful [create] of a JSON value can be read back: [get]
    returns a value structurally equal to the one created, and
    [getWithVersion] returns that value under a version whose minor is
    1. *)
Theorem create_then_get ctx key val w :
  json_value val = true ->
  fst (create clock compare ctx key val w) = Ok true ->
  exists v M,
    struct_eqb v val = true /\
    get ctx key (snd (create clock compare ctx key val w)) =
      (Ok v, snd (create clock compare ctx key val w)) /\
    fst (getWithVersion ctx key (snd (create clock compare ctx key val w))) =
      Ok {| vm_version := {| major := M; minor := 1 |}; vm_value := v |}.
Proof.
  intro Hj. rewrite create_cases.
  destruct (checkValue val) as [[]|] eqn:Hc; [|discriminate].
  destruct (io_fault w) eqn:Hf; [discriminate|].
  destruct (isLiveValue (db w !! key)) eqn:Hl; [discriminate|]. intros _.
  assert (Hne : struct_eqb (valueOrUndefined (db w !! key)) val = false).
  { rewrite (not_live_undefined _ Hl).
    apply struct_eqb_undefined, checkValue_defined, Hc. }
  destruct (put_commit clock compare compare_spec key (db w !! key) val None w Hne Hf)
    as (now & n & Hput).
  simpl in Hput. unfold settled. rewrite Hput. simpl.
  unfold get, getWithVersion, bind, getWithMeta. simpl.
  rewrite lookup_insert_eq. simpl.
  exists val. eexists. split; [now apply struct_eqb_refl|]. split; [reflexivity|].
  unfold committedVersion. rewrite Hl. reflexivity.
Qed.

(** X11: on a working store [remove] returns false and changes nothing
    when the key holds no live document; on a live document it returns
    true and leaves a tombstone: [get] then returns undefined, the version
    is the old one with its minor incremented, and a second [remove]
    returns false. *)
Theorem remove_live_or_not ctx key w :
  io_fault w = None ->
  if isLiveValue (db w !! key)
  then fst (remove clock compare ctx key w) = Ok true /\
       get ctx key (snd (remove clock compare ctx key w)) =
         (Ok JUndefined, snd (remove clock compare ctx key w)) /\
       currentVersion (snd (remove clock compare ctx key w)) key =
         incrVersion (currentVersion w key) 1 /\
       remove clock compare ctx key (snd (remove clock compare ctx key w)) =
         (Ok false, snd (remove clock compare ctx key w))
  else remove clock compare ctx key w = (Ok false, w).
Proof.
  intro Hf. rewrite (remove_cases clock compare ctx key w), Hf, not_live_iff.
  destruct (isLiveValue (db w !! key)) eqn:Hl; simpl; [|reflexivity].
  assert (Hne : struct_eqb (valueOrUndefined (db w !! key)) JUndefined = false).
  { destruct (db w !! key) as [p|]; [|discriminate]. simpl in *.
    destruct (value p); simpl in *; try reflexivity. discriminate. }
  destruct (put_commit clock compare compare_spec key (db w !! key) JUndefined None w Hne Hf)
    as (now & n & Hput).
  simpl in Hput. unfold settled. rewrite Hput. simpl.
  split; [reflexivity|]. split; [|split].
  - unfold get, bind, getWithMeta. simpl. now rewrite lookup_insert_eq.
  - unfold currentVersion at 1. simpl. rewrite lookup_insert_eq. simpl.
    unfold committedVersion, currentVersion. rewrite Hl.
    now destruct (db w !! key).
  - rewrite remove_cases. simpl. now rewrite lookup_insert_eq.
Qed.

(** X12: [setIfVersion] with an undefined value is [remove] under a
    version guard: on a live document whose version matches, the two calls
    have the same result and leave the same world. *)
Theorem setIfVersion_undefined_is_remove ctx key ver w :
  isLiveValue (db w !! key) = true ->
  versionsMatch (db w !! key) ver = true ->
  setIfVersion clock compare ctx key ver JUndefined None w =
  remove clock compare ctx key w.
Proof.
  intros Hl Hm.
  rewrite setIfVersion_cases, remove_cases, Hm, not_live_iff, Hl. reflexivity.
Qed.

Hypothesis clock_increasing : increasing clock.


End Composition.

(** ** Long polling, further *)

Lemma scanKey_scanned ctx kv w :
  io_fault w = None -> scanKey ctx kv w = (Ok (scanned w kv), w).
Proof.
  intro Hf. unfold scanKey, scanned, bind, getWithMeta. rewrite Hf.
  destruct (db w !! fst kv) as [d|]; [|reflexivity].
  now destruct (List.filter _ (patches d)).
Qed.

Lemma scan_scanned ctx (keysToVersions : KeyedVersions) w :
  io_fault w = None ->
  mapM (scanKey ctx) keysToVersions w = (Ok (List.map (scanned w) keysToVersions), w).
Proof.
  intro Hf. induction keysToVersions as [|kv rest IH]; [reflexivity|].
  simpl. unfold bind. now rewrite (scanKey_scanned _ _ _ Hf), IH.
Qed.

Lemma omap_map_scanned w (keysToVersions : KeyedVersions) :
  omap id (List.map (scanned w) keysToVersions) = omap (scanned w) keysToVersions.
Proof.
  induction keysToVersions as [|kv rest IH]; [reflexivity|].
  cbn. destruct (scanned w kv); cbn; now rewrite IH.
Qed.

(** [poll] on a working store: the scan, and the wait only when the scan
    has found nothing. *)
Lemma poll_working ctx (keysToVersions : KeyedVersions) opts (live : list LiveEvent) w :
  io_fault w = None ->
  poll ctx keysToVersions opts live w =
    match omap (scanned w) keysToVersions with
    | [] =>
        match withTimeout (deferred (patchHandler (Map_of keysToVersions)) live) (blockTime opts) with
        | Ok r => (Ok r, w)
        | Err e => onWaitError e w
        end
    | found => (Ok found, w)
    end.
Proof.
  intro Hf. unfold poll, pollWith, bind at 1.
  rewrite (scan_scanned _ _ _ Hf), omap_map_scanned.
  destruct (omap (scanned w) keysToVersions); simpl; [|reflexivity].
  now destruct (withTimeout _ _).
Qed.

Lemma scanned_newer w kv k ps :
  scanned w kv = Some (k, ps) ->
  k = fst kv /\
  exists d, db w !! k = Some d /\
    forall p, In p ps -> In p (patches d) /\ isGreaterVersion (patch_version p) (snd kv) = true.
Proof.
  unfold scanned. destruct (db w !! fst kv) as [d|] eqn:Hd; [|discriminate].
  destruct (List.filter _ (patches d)) as [|q qs] eqn:Hfl; [discriminate|].
  intro H. inversion H; subst k ps. split; [reflexivity|].
  exists d. split; [assumption|]. intros p Hp.
  rewrite <- Hfl in Hp. now apply filter_In in Hp.
Qed.

Lemma Map_of_from (entries : KeyedVersions) :
  forall (m : gmap string Version) k v,
    foldl (fun m kv => <[fst kv := snd kv]> m) m entries !! k = Some v ->
    m !! k = Some v \/ In (k, v) entries.
Proof.
  induction entries as [|[k' v'] rest IH]; intros m k v H; simpl in *; [now left|].
  destruct (IH _ _ _ H) as [Hm|Hin]; [|right; now right].
  destruct (decide (k' = k)) as [->|Hne].
  - rewrite lookup_insert_eq in Hm. inversion Hm. right. now left.
  - rewrite lookup_insert_ne in Hm by assumption. now left.
Qed.

Lemma Map_of_In (entries : KeyedVersions) k v :
  Map_of entries !! k = Some v -> In (k, v) entries.
Proof.
  intro H. destruct (Map_of_from entries ∅ k v H) as [Hm|Hin]; [|assumption].
  now rewrite lookup_empty in Hm.
Qed.

Lemma deferred_resolved (keysToVersions : KeyedVersions) (live : list LiveEvent) t r :
  deferred (patchHandler (Map_of keysToVersions)) live = Some (t, r) ->
  exists k p v,
    In (t, (k, p)) live /\ r = Ok [(k, [p])] /\
    Map_of keysToVersions !! k = Some v /\
    isGreaterVersion (patch_version p) v = true.
Proof.
  induction live as [|[t' [k p]] rest IH]; simpl; [discriminate|].
  unfold patchHandler at 1.
  destruct (Map_of keysToVersions !! k) as [v|] eqn:Hk.
  - destruct (isGreaterVersion (patch_version p) v) eqn:Hg.
    + intro H. inversion H; subst t' r. exists k, p, v. auto.
    + intro H. destruct (IH H) as (k0 & p0 & v0 & Hin & Hrest). exists k0, p0, v0. auto.
  - intro H. destruct (IH H) as (k0 & p0 & v0 & Hin & Hrest). exists k0, p0, v0. auto.
Qed.

(** X14: whatever [poll] returns, from the scan or from a live event,
    every patch it returns for a key is strictly greater than a version
    the caller subscribed that key with. *)
Theorem poll_returns_newer_patches ctx (keysToVersions : KeyedVersions) opts
    (live : list LiveEvent) w r k ps p :
  fst (poll ctx keysToVersions opts live w) = Ok r ->
  In (k, ps) r ->
  In p ps ->
  exists v, In (k, v) keysToVersions /\ isGreaterVersion (patch_version p) v = true.
Proof.
  intros Hok Hin Hp.
  destruct (io_fault w) as [msg|] eqn:Hf.
  - unfold poll, pollWith, bind at 1 in Hok.
    destruct keysToVersions as [|kv rest].
    + simpl in Hok.
      destruct (wait_outcome (patchHandler (Map_of [])) live (blockTime opts))
        as [[r' Hw] | Hw]; rewrite Hw in Hok; simpl in Hok.
      * unfold withTimeout in Hw.
        destruct (deferred _ live) as [[t o]|] eqn:Hd; [|discriminate].
        apply deferred_resolved in Hd as (k0 & p0 & v0 & _ & _ & Hm & _).
        unfold Map_of in Hm. simpl in Hm. now rewrite lookup_empty in Hm.
      * inversion Hok; subst r. destruct Hin.
    + rewrite (scan_fault _ _ _ _ _ Hf) in Hok. discriminate.
  - rewrite (poll_working _ _ _ _ _ Hf) in Hok.
    destruct (omap (scanned w) keysToVersions) as [|x found] eqn:Ho.
    + destruct (withTimeout _ _) as [r'|e] eqn:Hw; simpl in Hok.
      * inversion Hok; subst r'. unfold withTimeout in Hw.
        destruct (deferred _ live) as [[t o]|] eqn:Hd; [|discriminate].
        apply deferred_resolved in Hd as (k0 & p0 & v0 & _ & -> & Hm & Hg).
        destruct (t <? blockTime opts)%Z; [|discriminate].
        inversion Hw; subst r. destruct Hin as [Hin|[]]. inversion Hin; subst k ps.
        destruct Hp as [<-|[]]. exists v0. split; [now apply Map_of_In|assumption].
      * unfold onWaitError in Hok.
        destruct (error_name e =? "TimeoutError")%string; simpl in Hok; [|discriminate].
        inversion Hok; subst r. destruct Hin.
    + simpl in Hok. inversion Hok; subst r. rewrite <- Ho in Hin.
      apply list_elem_of_In, list_elem_of_omap in Hin as ([k' v] & Hkv & Hs).
      apply scanned_newer in Hs as [-> (d & _ & Hall)]. simpl.
      exists v. split; [now apply list_elem_of_In|]. now apply Hall.
Qed.

(** X15: when the stored history of some subscribed key already holds a
    patch above the version given for it, [poll] returns at once what the
    scan found (for every subscribed key, in the order of the
    subscription, all its stored patches above its version), whatever the
    block time and the live events. *)
Theorem poll_scan_comes_first ctx (keysToVersions : KeyedVersions) opts
    (live : list LiveEvent) w k v d p :
  io_fault w = None ->
  In (k, v) keysToVersions ->
  db w !! k = Some d ->
  In p (patches d) ->
  isGreaterVersion (patch_version p) v = true ->
  poll ctx keysToVersions opts live w = (Ok (omap (scanned w) keysToVersions), w) /\
  omap (scanned w) keysToVersions <> [].
Proof.
  intros Hf Hin Hd Hp Hg.
  assert (Hne : omap (scanned w) keysToVersions <> []).
  { assert (Hs : exists ps, scanned w (k, v) = Some (k, ps)).
    { unfold scanned. simpl. rewrite Hd.
      destruct (List.filter _ (patches d)) as [|q qs] eqn:Hfl; [|eauto].
      assert (Hin' : In p (List.filter (fun p0 => isGreaterVersion (patch_version p0) v)
                             (patches d))) by (apply filter_In; auto).
      rewrite Hfl in Hin'. destruct Hin'. }
    destruct Hs as [ps Hs]. intro Hnil.
    assert (Hel : (k, ps) ∈ omap (scanned w) keysToVersions).
    { apply list_elem_of_omap. exists (k, v). split; [now apply list_elem_of_In|assumption]. }
    rewrite Hnil in Hel. now apply not_elem_of_nil in Hel. }
  split; [|assumption].
  rewrite (poll_working _ _ _ _ _ Hf).
  now destruct (omap (scanned w) keysToVersions).
Qed.

Lemma scanned_nothing w (keysToVersions : KeyedVersions) :
  (forall k v d p, In (k, v) keysToVersions -> db w !! k = Some d -> In p (patches d) ->
                   isGreaterVersion (patch_version p) v = false) ->
  omap (scanned w) keysToVersions = [].
Proof.
  intro H. apply elem_of_nil_inv. intros [k ps] Hel.
  apply list_elem_of_omap in Hel as ([k' v] & Hkv & Hs).
  apply list_elem_of_In in Hkv.
  unfold scanned in Hs. simpl in Hs.
  destruct (db w !! k') as [d|] eqn:Hd; [|discriminate].
  destruct (List.filter _ (patches d)) as [|q qs] eqn:Hfl; [discriminate|].
  assert (Hq : In q (List.filter (fun p => isGreaterVersion (patch_version p) v) (patches d)))
    by (rewrite Hfl; now left).
  apply filter_In in Hq as [Hq Hg].
  rewrite (H k' v d q Hkv Hd Hq) in Hg. discriminate.
Qed.

(** X16: when the scan finds nothing and the first live event above the
    subscribed version of its key is delivered before the block time is
    over, [poll] returns that one key with that one patch. *)
Theorem poll_returns_first_live_patch ctx (keysToVersions : KeyedVersions) opts
    (before after : list LiveEvent) t k p v w :
  io_fault w = None ->
  (forall k' v' d' p', In (k', v') keysToVersions -> db w !! k' = Some d' ->
                       In p' (patches d') ->
                       isGreaterVersion (patch_version p') v' = false) ->
  (forall t' k' p' v', In (t', (k', p')) before ->
                       Map_of keysToVersions !! k' = Some v' ->
                       isGreaterVersion (patch_version p') v' = false) ->
  Map_of keysToVersions !! k = Some v ->
  isGreaterVersion (patch_version p) v = true ->
  (t < blockTime opts)%Z ->
  poll ctx keysToVersions opts (before ++ (t, (k, p)) :: after) w = (Ok [(k, [p])], w).
Proof.
  intros Hf Hscan Hbefore Hk Hg Ht.
  rewrite (poll_working _ _ _ _ _ Hf), (scanned_nothing _ _ Hscan).
  assert (Hd : deferred (patchHandler (Map_of keysToVersions)) (before ++ (t, (k, p)) :: after)
               = Some (t, Ok [(k, [p])])).
  { induction before as [|[t' [k' p']] rest IH]; simpl.
    - unfold patchHandler. now rewrite Hk, Hg.
    - assert (Hnone : patchHandler (Map_of keysToVersions) k' p' = None).
      { unfold patchHandler.
        destruct (Map_of keysToVersions !! k') as [v'|] eqn:Hk'; [|reflexivity].
        now rewrite (Hbefore t' k' p' v') by (auto; now left). }
      rewrite Hnone.
      apply IH. intros t0 k0 p0 v0 Hin. apply (Hbefore t0). now right. }
  rewrite Hd. simpl. apply Z.ltb_lt in Ht. now rewrite Ht.
Qed.

(** ** The filter algebra *)

Section Filters.

Variable coerce_lt : jsval -> jsval -> option bool.
Variable regexp_test : string -> bool -> string -> bool.

Lemma match_and_cons doc g rest :
  match_ coerce_lt regexp_test doc (FAnd (g :: rest)) =
    match wrappedMatch coerce_lt regexp_test doc g with
    | Ok true => match_ coerce_lt regexp_test doc (FAnd rest)
    | Ok false => Ok (Some false)
    | Err e => Err e
    end.
Proof. reflexivity. Qed.

Lemma match_or_cons doc g rest :
  match_ coerce_lt regexp_test doc (FOr (g :: rest)) =
    match wrappedMatch coerce_lt regexp_test doc g with
    | Ok true => Ok (Some true)
    | Ok false => match_ coerce_lt regexp_test doc (FOr rest)
    | Err e => Err e
    end.
Proof. reflexivity. Qed.

Lemma wrapped_and_nil doc : wrappedMatch coerce_lt regexp_test doc (FAnd []) = Ok true.
Proof. reflexivity. Qed.

Lemma wrapped_or_nil doc : wrappedMatch coerce_lt regexp_test doc (FOr []) = Ok false.
Proof. reflexivity. Qed.

Lemma wrapped_and_cons doc g rest :
  wrappedMatch coerce_lt regexp_test doc (FAnd (g :: rest)) =
    match wrappedMatch coerce_lt regexp_test doc g with
    | Ok true => wrappedMatch coerce_lt regexp_test doc (FAnd rest)
    | Ok false => Ok false
    | Err e => Err e
    end.
Proof.
  unfold wrappedMatch at 1. rewrite match_and_cons.
  destruct (wrappedMatch coerce_lt regexp_test doc g) as [[]|]; reflexivity.
Qed.

Lemma wrapped_or_cons doc g rest :
  wrappedMatch coerce_lt regexp_test doc (FOr (g :: rest)) =
    match wrappedMatch coerce_lt regexp_test doc g with
    | Ok true => Ok true
    | Ok false => wrappedMatch coerce_lt regexp_test doc (FOr rest)
    | Err e => Err e
    end.
Proof.
  unfold wrappedMatch at 1. rewrite match_or_cons.
  destruct (wrappedMatch coerce_lt regexp_test doc g) as [[]|]; reflexivity.
Qed.

Lemma wrapped_not doc g :
  wrappedMatch coerce_lt regexp_test doc (FNot g) =
    match wrappedMatch coerce_lt regexp_test doc g with
    | Ok b => Ok (negb b)
    | Err e => Err e
    end.
Proof.
  unfold wrappedMatch at 1. simpl.
  change (checked g (match_ coerce_lt regexp_test doc g)) with (wrappedMatch coerce_lt regexp_test doc g).
  now destruct (wrappedMatch coerce_lt regexp_test doc g).
Qed.

(** X17: negating a filter twice changes nothing: the doubly negated
    filter has the result of the filter itself, and fails exactly when it
    fails, with the same error. *)
Theorem double_negation doc f :
  wrappedMatch coerce_lt regexp_test doc (FNot (FNot f)) = wrappedMatch coerce_lt regexp_test doc f.
Proof.
  rewrite !wrapped_not. destruct (wrappedMatch coerce_lt regexp_test doc f) as [b|e]; [|reflexivity].
  now rewrite negb_involutive.
Qed.

(** X18: an [and] filter is true exactly when every operand is true (so
    the empty [and] is true), and an [or] filter is false exactly when
    every operand is false (so the empty [or] is false). *)
Theorem and_or_of_all doc fs :
  (wrappedMatch coerce_lt regexp_test doc (FAnd fs) = Ok true <-> Forall (fun f => wrappedMatch coerce_lt regexp_test doc f = Ok true) fs) /\
  (wrappedMatch coerce_lt regexp_test doc (FOr fs) = Ok false <-> Forall (fun f => wrappedMatch coerce_lt regexp_test doc f = Ok false) fs).
Proof.
  split.
  - induction fs as [|g rest IH]; [split; [constructor|reflexivity]|].
    rewrite wrapped_and_cons, Forall_cons.
    destruct (wrappedMatch coerce_lt regexp_test doc g) as [[]|e]; rewrite ?IH; split; intros H;
      try discriminate; try (destruct H as [H _]; discriminate); tauto.
  - induction fs as [|g rest IH]; [split; [constructor|reflexivity]|].
    rewrite wrapped_or_cons, Forall_cons.
    destruct (wrappedMatch coerce_lt regexp_test doc g) as [[]|e]; rewrite ?IH; split; intros H;
      try discriminate; try (destruct H as [H _]; discriminate); tauto.
Qed.

(** X19: [and] and [or] stop at the first operand that decides: behind
    true operands, a false operand makes the [and] false and a failing one
    makes it fail with its error, whatever follows (an unsupported
    operator included); dually for [or] behind false operands. *)
Theorem and_or_short_circuit doc before g after :
  (Forall (fun f => wrappedMatch coerce_lt regexp_test doc f = Ok true) before ->
   wrappedMatch coerce_lt regexp_test doc g <> Ok true ->
   wrappedMatch coerce_lt regexp_test doc (FAnd (before ++ g :: after)) = wrappedMatch coerce_lt regexp_test doc g) /\
  (Forall (fun f => wrappedMatch coerce_lt regexp_test doc f = Ok false) before ->
   wrappedMatch coerce_lt regexp_test doc g <> Ok false ->
   wrappedMatch coerce_lt regexp_test doc (FOr (before ++ g :: after)) = wrappedMatch coerce_lt regexp_test doc g).
Proof.
  split; intros Hb Hg.
  - induction Hb as [|f rest Hf Hrest IH]; simpl.
    + rewrite wrapped_and_cons. destruct (wrappedMatch coerce_lt regexp_test doc g) as [[]|]; congruence.
    + now rewrite wrapped_and_cons, Hf.
  - induction Hb as [|f rest Hf Hrest IH]; simpl.
    + rewrite wrapped_or_cons. destruct (wrappedMatch coerce_lt regexp_test doc g) as [[]|]; congruence.
    + now rewrite wrapped_or_cons, Hf.
Qed.

(** X20: De Morgan's laws hold for the filters, errors included: the
    negation of an [and] is the [or] of the negated operands and the
    negation of an [or] is the [and] of the negated operands, with the same
    result or the same error. *)
Theorem de_morgan doc fs :
  wrappedMatch coerce_lt regexp_test doc (FNot (FAnd fs)) = wrappedMatch coerce_lt regexp_test doc (FOr (List.map FNot fs)) /\
  wrappedMatch coerce_lt regexp_test doc (FNot (FOr fs)) = wrappedMatch coerce_lt regexp_test doc (FAnd (List.map FNot fs)).
Proof.
  split.
  - induction fs as [|g rest IH]; [reflexivity|].
    simpl. rewrite wrapped_or_cons, !wrapped_not, wrapped_and_cons.
    rewrite wrapped_not in IH.
    destruct (wrappedMatch coerce_lt regexp_test doc g) as [[]|e]; simpl; [exact IH|reflexivity..].
  - induction fs as [|g rest IH]; [reflexivity|].
    simpl. rewrite wrapped_and_cons, !wrapped_not, wrapped_or_cons.
    rewrite wrapped_not in IH.
    destruct (wrappedMatch coerce_lt regexp_test doc g) as [[]|e]; simpl; [reflexivity|exact IH|reflexivity].
Qed.






(** X22: the comparison filters need both sides of the same [typeof]: when
    the value at the path and the operand differ in type, [gt], [gte],
    [lt] and [lte] are all false. *)
Theorem comparison_needs_same_type doc p operand :
  typeof (path p (doc_object doc)) <> typeof operand ->
  match_ coerce_lt regexp_test doc (FGt p operand) = Ok (Some false) /\
  match_ coerce_lt regexp_test doc (FGte p operand) = Ok (Some false) /\
  match_ coerce_lt regexp_test doc (FLt p operand) = Ok (Some false) /\
  match_ coerce_lt regexp_test doc (FLte p operand) = Ok (Some false).
Proof.
  intro H. apply String.eqb_neq in H. simpl. rewrite H. auto.
Qed.

(** X23: on numbers and on strings the comparison filters are the usual
    orders: for a number at the path and a number operand they compare the
    two numbers, for a string at the path and a string operand they compare
    the two strings in lexicographic order. *)
Theorem comparison_of_numbers_and_strings doc p :
  (forall m n, path p (doc_object doc) = JNum m ->
     match_ coerce_lt regexp_test doc (FGt p (JNum n)) = Ok (Some (m >? n)%Z) /\
     match_ coerce_lt regexp_test doc (FGte p (JNum n)) = Ok (Some (m >=? n)%Z) /\
     match_ coerce_lt regexp_test doc (FLt p (JNum n)) = Ok (Some (m <? n)%Z) /\
     match_ coerce_lt regexp_test doc (FLte p (JNum n)) = Ok (Some (m <=? n)%Z)) /\
  (forall s t, path p (doc_object doc) = JStr s ->
     match_ coerce_lt regexp_test doc (FGt p (JStr t)) = Ok (Some (String.ltb t s)) /\
     match_ coerce_lt regexp_test doc (FGte p (JStr t)) = Ok (Some (negb (String.ltb s t))) /\
     match_ coerce_lt regexp_test doc (FLt p (JStr t)) = Ok (Some (String.ltb s t)) /\
     match_ coerce_lt regexp_test doc (FLte p (JStr t)) = Ok (Some (negb (String.ltb t s)))).
Proof.
  split.
  - intros m n H. simpl. rewrite H. unfold gt, gte, lt, lte. simpl.
    rewrite Z.gtb_ltb, Z.geb_leb, (Z.leb_antisym n m), (Z.leb_antisym m n).
    repeat split; f_equal; f_equal; now destruct (_ <? _)%Z.
  - intros s t H. simpl. rewrite H. unfold gt, gte, lt, lte. simpl.
    repeat split; f_equal; f_equal; now destruct (String.ltb _ _).
Qed.

(** Past its first switch, [match] is its second switch on the value that
    [path] extracts. *)
Lemma match_on_value doc f :
  match f with FAnd _ | FOr _ | FNot _ => False | _ => True end ->
  match_ coerce_lt regexp_test doc f =
    on_value coerce_lt regexp_test (path (filter_path f) (doc_object doc)) f.
Proof. destruct f; simpl; intro H; try reflexivity; contradiction. Qed.

(** X24: when the value extracted at the path of a leaf filter is
    [undefined] (nothing is found there, neither an own property nor an
    inherited member), the filter fails [exists], [isNull], every
    comparison, [matches] and [startsWith]; it passes [eq] only against an
    undefined operand, and [ne] against every other operand. *)
Theorem missing_value_filters p operand pattern ci prefix :
  on_value coerce_lt regexp_test JUndefined (FExists p) = Ok (Some false) /\
  on_value coerce_lt regexp_test JUndefined (FIsNull p) = Ok (Some false) /\
  on_value coerce_lt regexp_test JUndefined (FGt p operand) = Ok (Some false) /\
  on_value coerce_lt regexp_test JUndefined (FGte p operand) = Ok (Some false) /\
  on_value coerce_lt regexp_test JUndefined (FLt p operand) = Ok (Some false) /\
  on_value coerce_lt regexp_test JUndefined (FLte p operand) = Ok (Some false) /\
  on_value coerce_lt regexp_test JUndefined (FMatches p pattern ci) = Ok (Some false) /\
  on_value coerce_lt regexp_test JUndefined (FStartsWith p prefix) = Ok (Some false) /\
  on_value coerce_lt regexp_test JUndefined (FEq p operand) =
    Ok (Some (is_undefined operand)) /\
  on_value coerce_lt regexp_test JUndefined (FNe p operand) =
    Ok (Some (negb (is_undefined operand))).
Proof.
  simpl. unfold gt, gte, lt, lte.
  rewrite js_lt_undefined_l, js_lt_undefined_r. simpl.
  rewrite !andb_false_r. repeat split; now destruct operand.
Qed.

(** X25: DESC is ASC with the two documents exchanged, and on two
    documents with numbers at the ordering path the ASC comparator is the
    sign of the comparison of the numbers. *)
Theorem comparator_directions p a b :
  buildComparator coerce_lt {| order_path := p; direction := DESC |} a b =
    buildComparator coerce_lt {| order_path := p; direction := ASC |} b a /\
  (forall m n, path p (doc_object a) = JNum m -> path p (doc_object b) = JNum n ->
     buildComparator coerce_lt {| order_path := p; direction := ASC |} a b =
       match (m ?= n)%Z with Lt => (-1)%Z | Datatypes.Eq => 0%Z | Gt => 1%Z end).
Proof.
  split; [reflexivity|].
  intros m n Ha Hb. unfold buildComparator, ascend, lt, gt. simpl. rewrite Ha, Hb. simpl.
  destruct (Z.compare_spec m n) as [->|Hlt|Hgt].
  - now rewrite Z.ltb_irrefl.
  - apply Z.ltb_lt in Hlt. now rewrite Hlt.
  - assert (Hn : (m <? n)%Z = false) by (apply Z.ltb_ge; lia).
    apply Z.ltb_lt in Hgt. now rewrite Hn, Hgt.
Qed.

End Filters.

(** ** Queries over the store *)

Lemma sort_insert_perm {A : Type} (cmp : A -> A -> Z) x (l : list A) :
  sort_insert cmp x l ≡ₚ x :: l.
Proof.
  induction l as [|y rest IH]; simpl; [reflexivity|].
  destruct (cmp x y <=? 0)%Z; [reflexivity|].
  rewrite IH. apply perm_swap.
Qed.

(** The sort neither drops nor invents an element. *)
Lemma array_sort_perm {A : Type} (cmp : A -> A -> Z) (l : list A) :
  array_sort cmp l ≡ₚ l.
Proof.
  induction l as [|x l IH]; [reflexivity|].
  change (array_sort cmp (x :: l)) with (sort_insert cmp x (array_sort cmp l)).
  now rewrite sort_insert_perm, IH.
Qed.

Lemma iterator_elem w k d : (k, d) ∈ iterator w <-> db w !! k = Some d.
Proof.
  unfold iterator. rewrite array_sort_perm. apply elem_of_map_to_list.
Qed.

Lemma slice_subseteq {A : Type} start stop (l : list A) : slice start stop l ⊆ l.
Proof.
  unfold slice. etransitivity; [apply subseteq_take|apply subseteq_drop].
Qed.

Lemma slice_all {A : Type} (l : list A) : slice None None l = l.
Proof.
  unfold slice. simpl. rewrite Nat.sub_0_r. apply firstn_all.
Qed.

Lemma slice_limit {A : Type} (sk : option Z) (n : Z) (l : list A) :
  (0 <= n)%Z ->
  (length (slice sk (Some (match sk with Some s => s | None => 0 end + n)%Z) l)
   <= Z.to_nat n)%nat.
Proof.
  intro Hn. unfold slice. rewrite length_take.
  etransitivity; [apply Nat.le_min_l|].
  unfold slice_bound.
  destruct sk as [s|].
  - destruct (Z.ltb_spec s 0), (Z.ltb_spec (s + n) 0); lia.
  - destruct (Z.ltb_spec (0 + n) 0); lia.
Qed.

Section Finding.

Variable coerce_lt : jsval -> jsval -> option bool.
Variable regexp_test : string -> bool -> string -> bool.

Lemma collect_elem flt rows docs doc :
  collect coerce_lt regexp_test flt rows = Ok docs ->
  (doc ∈ docs <->
   exists d, (key doc, d) ∈ rows /\ doc_value doc = value d /\
             is_undefined (value d) = false /\
             wrappedMatch coerce_lt regexp_test doc flt = Ok true).
Proof.
  revert docs. induction rows as [|[k d] rest IH]; intros docs; simpl.
  - intro H. inversion H. split; [intro Hel; now apply elem_of_nil in Hel|].
    intros (d & Hel & _). now apply elem_of_nil in Hel.
  - destruct (is_undefined (value d)) eqn:Hu.
    + intro H. rewrite (IH _ H). split.
      * intros (d' & Hel & Hrest). exists d'. split; [now right|assumption].
      * intros (d' & Hel & Hv & Hu' & Hm). exists d'.
        apply elem_of_cons in Hel as [Heq|Hel]; [|auto].
        inversion Heq; subst. congruence.
    + destruct (wrappedMatch coerce_lt regexp_test {| key := k; doc_value := value d |} flt)
        as [isMatch|e] eqn:Hw; [|discriminate].
      destruct (collect coerce_lt regexp_test flt rest) as [results|e] eqn:Hc; [|discriminate].
      intro H. inversion H; subst docs; clear H.
      specialize (IH results eq_refl).
      destruct isMatch.
      * rewrite elem_of_cons, IH. split.
        -- intros [-> | (d' & Hel & Hrest)].
           ++ exists d. simpl. repeat split; [now left|assumption..].
           ++ exists d'. split; [now right|assumption].
        -- intros (d' & Hel & Hv & Hu' & Hm).
           apply elem_of_cons in Hel as [Heq|Hel]; [|right; eauto].
           left. inversion Heq; subst. destruct doc as [k' v']. simpl in *. now subst.
      * rewrite IH. split.
        -- intros (d' & Hel & Hrest). exists d'. split; [now right|assumption].
        -- intros (d' & Hel & Hv & Hu' & Hm). exists d'.
           apply elem_of_cons in Hel as [Heq|Hel]; [|auto].
           inversion Heq; subst. destruct doc as [k' v']. simpl in *. subst.
           congruence.
Qed.

Lemma find_sorted_elem ctx q w docs :
  fst (find coerce_lt regexp_test ctx q w) = Ok docs ->
  exists results,
    collect coerce_lt regexp_test (filter q) (iterator w) = Ok results /\
    docs ⊆ results /\
    (skip q = None -> limit q = None -> docs ≡ₚ results) /\
    (forall n, limit q = Some n -> (0 <= n)%Z -> (length docs <= Z.to_nat n)%nat).
Proof.
  unfold find. destruct (io_fault w); [discriminate|].
  destruct (collect coerce_lt regexp_test (filter q) (iterator w)) as [results|e];
    [|discriminate].
  simpl. intro H. inversion H; subst docs; clear H.
  exists results. split; [reflexivity|].
  assert (Hs : (match orderBy q with
                | Some orders => sortWith (List.map (buildComparator coerce_lt) orders) results
                | None => results
                end) ≡ₚ results).
  { destruct (orderBy q); [apply array_sort_perm|reflexivity]. }
  split; [|split].
  - etransitivity; [apply slice_subseteq|]. now rewrite Hs.
  - intros Hsk Hli. rewrite Hsk, Hli. simpl. now rewrite slice_all.
  - intros n Hli Hn. rewrite Hli. now apply slice_limit.
Qed.

(** X26: [find] returns only documents of the store that are live and
    match the filter: every document in the result is the key and the
    value of a stored envelope that has a value, and the filter is true of
    it. *)
Theorem find_returns_matching_documents ctx q w docs doc :
  fst (find coerce_lt regexp_test ctx q w) = Ok docs ->
  In doc docs ->
  exists d, db w !! key doc = Some d /\ doc_value doc = value d /\
            is_undefined (value d) = false /\
            wrappedMatch coerce_lt regexp_test doc (filter q) = Ok true.
Proof.
  intros Hf Hin.
  destruct (find_sorted_elem ctx q w docs Hf) as (results & Hc & Hsub & _).
  apply list_elem_of_In, Hsub in Hin.
  apply (collect_elem _ _ _ _ Hc) in Hin as (d & Hel & Hrest).
  exists d. split; [now apply iterator_elem|assumption].
Qed.

(** X27: without [skip] and [limit], [find] returns every live document
    of the store that matches the filter, whatever the ordering asked
    for. *)
Theorem find_returns_every_match ctx q w docs k d :
  skip q = None ->
  limit q = None ->
  fst (find coerce_lt regexp_test ctx q w) = Ok docs ->
  db w !! k = Some d ->
  is_undefined (value d) = false ->
  wrappedMatch coerce_lt regexp_test {| key := k; doc_value := value d |} (filter q) = Ok true ->
  In {| key := k; doc_value := value d |} docs.
Proof.
  intros Hsk Hli Hf Hd Hu Hm.
  destruct (find_sorted_elem ctx q w docs Hf) as (results & Hc & _ & Hperm & _).
  apply list_elem_of_In. rewrite (Hperm Hsk Hli).
  apply (collect_elem _ _ _ _ Hc). exists d. simpl.
  split; [now apply iterator_elem|auto].
Qed.

(** X28: with a limit that is not negative, [find] returns at most that
    many documents, whatever [skip] is (negative, counting from the end,
    included). *)
Theorem find_respects_limit ctx q w docs n :
  limit q = Some n ->
  (0 <= n)%Z ->
  fst (find coerce_lt regexp_test ctx q w) = Ok docs ->
  (length docs <= Z.to_nat n)%nat.
Proof.
  intros Hli Hn Hf.
  destruct (find_sorted_elem ctx q w docs Hf) as (results & _ & _ & _ & Hlen).
  now apply Hlen.
Qed.

End Finding.

(** ** Storage faults and the initial data *)

Section Environment.

Variable clock : nat -> Z.
Variable compare : jsval -> jsval -> list Operation.

Lemma put_write_fails key prev val options w msg :
  compare (root (valueOrUndefined prev)) (root val) <> [] ->
  io_fault w = Some msg ->
  fst (put clock compare key prev val options w) = Err (LevelError msg) /\
  db (snd (put clock compare key prev val options w)) = db w /\
  emitted (snd (put clock compare key prev val options w)) = emitted w.
Proof.
  intros Hops Hf. unfold put.
  destruct (compare (root (valueOrUndefined prev)) (root val)) as [|op rest];
    [congruence|].
  destruct prev as [p|]; [destruct (is_undefined (value p)) eqn:Hu|];
    unfold bind, hrnano, ret, db_put, emit; simpl; rewrite Hf; simpl; auto.
Qed.

(** X29: when the calls of the store fail, every operation fails at its
    read of the key, through [getWithMeta], with the error of the store
    wrapped under the debug identifier of the caller, and changes nothing;
    [put] does not wrap: a write that fails in it gives the bare error of
    the store, with nothing stored and nothing published. *)
Theorem storage_fault_propagates ctx key ver val options w msg :
  io_fault w = Some msg ->
  checkValue val = Ok tt ->
  get ctx key w =
    (Err (WrappedError ("[" +:+ debugId ctx +:+ "] " +:+ msg) (debugId ctx)), w) /\
  getWithVersion ctx key w =
    (Err (WrappedError ("[" +:+ debugId ctx +:+ "] " +:+ msg) (debugId ctx)), w) /\
  create clock compare ctx key val w =
    (Err (WrappedError ("[" +:+ debugId ctx +:+ "] " +:+ msg) (debugId ctx)), w) /\
  remove clock compare ctx key w =
    (Err (WrappedError ("[" +:+ debugId ctx +:+ "] " +:+ msg) (debugId ctx)), w) /\
  setIfVersion clock compare ctx key ver val options w =
    (Err (WrappedError ("[" +:+ debugId ctx +:+ "] " +:+ msg) (debugId ctx)), w) /\
  (forall prev, compare (root (valueOrUndefined prev)) (root val) <> [] ->
     fst (put clock compare key prev val options w) = Err (LevelError msg) /\
     db (snd (put clock compare key prev val options w)) = db w /\
     emitted (snd (put clock compare key prev val options w)) = emitted w).
Proof.
  intros Hf Hc.
  rewrite create_cases, remove_cases, setIfVersion_cases, Hc, Hf.
  unfold get, getWithVersion, bind.
  rewrite (getWithMeta_fault _ _ _ _ Hf).
  split; [reflexivity|]. split; [reflexivity|]. split; [reflexivity|].
  split; [reflexivity|]. split; [now destruct (is_undefined val)|].
  intros prev Hops. now apply put_write_fails.
Qed.

Lemma create_keeps_live ctx key val w k :
  isLiveValue (db w !! k) = true ->
  db (snd (create clock compare ctx key val w)) !! k = db w !! k.
Proof.
  intro Hl. destruct (decide (k = key)) as [->|Hne].
  - rewrite create_cases.
    destruct (checkValue val); [|reflexivity].
    destruct (io_fault w); [reflexivity|]. now rewrite Hl.
  - destruct (create_shape clock compare ctx key val w) as [-> | ->];
      [reflexivity|now apply put_other_key].
Qed.

(** X30: the initial data never replaces a document: a key that holds a
    live document when the store is opened holds the same envelope after
    the constructor has run, whatever the items are. *)
Theorem construct_keeps_live_documents items opened k :
  isLiveValue (db opened !! k) = true ->
  db (construct clock compare items opened) !! k = db opened !! k.
Proof.
  unfold construct. revert opened.
  induction items as [|[key val] rest IH]; intros opened Hl; [reflexivity|].
  simpl. rewrite IH.
  - now apply create_keeps_live.
  - now rewrite create_keeps_live.
Qed.

End Environment.

(** ** Instances of the further properties *)

Lemma sampleClock_increasing : increasing sampleClock.
Proof. unfold increasing, sampleClock. split; intros; lia. Qed.


Lemma writes_leave_other_keys_witness :
  "z" <> "k" /\
  db (snd (create sampleClock replaceDiff ctx0 "k" (JNum 7) tombstoneWorld)) !! "z"
    = db tombstoneWorld !! "z".
Proof.
  assert (H : "z" <> "k") by discriminate.
  split; [exact H|].
  exact (proj1 (writes_leave_other_keys sampleClock replaceDiff ctx0 "k"
                  {| major := 0; minor := 0 |} (JNum 7) None tombstoneWorld "z" H)).
Defined.

Lemma last_patch_has_envelope_version_witness :
  reachable sampleClock replaceDiff tombstoneWorld /\
  db tombstoneWorld !! "k" = Some tombstoneDoc /\
  exists p, last (patches tombstoneDoc) = Some p /\ patch_version p = version tombstoneDoc.
Proof.
  split; [exact tombstoneWorld_reachable|]. split; [reflexivity|].
  exact (last_patch_has_envelope_version sampleClock replaceDiff tombstoneWorld "k"
           tombstoneDoc tombstoneWorld_reachable eq_refl).
Defined.

Lemma writes_raise_version_witness :
  increasing sampleClock /\
  reachable sampleClock replaceDiff tombstoneWorld /\
  (db (snd (create sampleClock replaceDiff ctx0 "k" (JNum 7) tombstoneWorld))
     = db tombstoneWorld \/
   isGreaterVersion
     (currentVersion (snd (create sampleClock replaceDiff ctx0 "k" (JNum 7) tombstoneWorld)) "k")
     (currentVersion tombstoneWorld "k") = true).
Proof.
  split; [exact sampleClock_increasing|]. split; [exact tombstoneWorld_reachable|].
  exact (proj1 (writes_raise_version sampleClock replaceDiff sampleClock_increasing ctx0 "k"
                  {| major := 0; minor := 0 |} (JNum 7) None tombstoneWorld
                  tombstoneWorld_reachable)).
Defined.

Lemma patches_strictly_increasing_witness :
  increasing sampleClock /\
  reachable sampleClock replaceDiff tombstoneWorld /\
  db tombstoneWorld !! "k" = Some tombstoneDoc /\
  (0 < 1)%nat /\
  isGreaterVersion {| major := 1000; minor := 2 |} {| major := 1000; minor := 1 |} = true.
Proof.
  split; [exact sampleClock_increasing|]. split; [exact tombstoneWorld_reachable|].
  split; [reflexivity|]. split; [lia|].
  exact (patches_strictly_increasing sampleClock replaceDiff sampleClock_increasing
           tombstoneWorld "k" tombstoneDoc 0 1 _ _
           tombstoneWorld_reachable eq_refl ltac:(lia) eq_refl eq_refl).
Defined.

Lemma setIfVersion_accepts_read_version_witness :
  admissible (JNum 7) /\
  fst (getWithVersion ctx0 "k" tombstoneWorld) =
    Ok {| vm_version := {| major := 1000; minor := 2 |}; vm_value := JUndefined |} /\
  fst (setIfVersion sampleClock replaceDiff ctx0 "k" {| major := 1000; minor := 2 |}
         (JNum 7) None tombstoneWorld) = Ok true.
Proof.
  assert (Ha : admissible (JNum 7)) by (right; reflexivity).
  split; [exact Ha|]. split; [reflexivity|].
  exact (setIfVersion_accepts_read_version sampleClock replaceDiff ctx0 "k" (JNum 7) None
           tombstoneWorld
           {| vm_version := {| major := 1000; minor := 2 |}; vm_value := JUndefined |}
           Ha eq_refl).
Defined.

Lemma create_then_get_witness :
  json_value (JStr "v") = true /\
  fst (create sampleClock replaceDiff ctx0 "k" (JStr "v") tombstoneWorld) = Ok true /\
  exists v M,
    struct_eqb v (JStr "v") = true /\
    get ctx0 "k" (snd (create sampleClock replaceDiff ctx0 "k" (JStr "v") tombstoneWorld)) =
      (Ok v, snd (create sampleClock replaceDiff ctx0 "k" (JStr "v") tombstoneWorld)) /\
    fst (getWithVersion ctx0 "k"
           (snd (create sampleClock replaceDiff ctx0 "k" (JStr "v") tombstoneWorld))) =
      Ok {| vm_version := {| major := M; minor := 1 |}; vm_value := v |}.
Proof.
  split; [reflexivity|]. split; [reflexivity|].
  exact (create_then_get sampleClock replaceDiff replaceDiff_spec ctx0 "k" (JStr "v")
           tombstoneWorld eq_refl eq_refl).
Defined.

Lemma remove_live_or_not_witness :
  io_fault liveWorld = None /\
  fst (remove sampleClock replaceDiff ctx0 "k" liveWorld) = Ok true /\
  remove sampleClock replaceDiff ctx0 "k" tombstoneWorld = (Ok false, tombstoneWorld).
Proof.
  split; [reflexivity|].
  pose proof (remove_live_or_not sampleClock replaceDiff replaceDiff_spec ctx0 "k"
                liveWorld eq_refl) as H.
  change (isLiveValue (db liveWorld !! "k")) with true in H.
  destruct H as (H1 & _ & _ & H4). split; [exact H1|exact H4].
Defined.

Lemma setIfVersion_undefined_is_remove_witness :
  isLiveValue (db liveWorld !! "k") = true /\
  versionsMatch (db liveWorld !! "k") {| major := 1000; minor := 1 |} = true /\
  setIfVersion sampleClock replaceDiff ctx0 "k" {| major := 1000; minor := 1 |}
    JUndefined None liveWorld
  = remove sampleClock replaceDiff ctx0 "k" liveWorld.
Proof.
  split; [reflexivity|]. split; [reflexivity|].
  exact (setIfVersion_undefined_is_remove sampleClock replaceDiff ctx0 "k"
           {| major := 1000; minor := 1 |} liveWorld eq_refl eq_refl).
Defined.


Lemma poll_returns_newer_patches_witness :
  fst (poll ctx0 earlySubscription oneSecond [] liveWorld) = Ok [("k", [firstPatch])] /\
  In ("k", [firstPatch]) [("k", [firstPatch])] /\
  In firstPatch [firstPatch] /\
  exists v, In ("k", v) earlySubscription /\
            isGreaterVersion (patch_version firstPatch) v = true.
Proof.
  split; [reflexivity|]. split; [now left|]. split; [now left|].
  exact (poll_returns_newer_patches ctx0 earlySubscription oneSecond [] liveWorld
           [("k", [firstPatch])] "k" [firstPatch] firstPatch
           eq_refl (or_introl eq_refl) (or_introl eq_refl)).
Defined.

Lemma poll_scan_comes_first_witness :
  io_fault liveWorld = None /\
  In ("k", {| major := 1000; minor := 0 |}) earlySubscription /\
  db liveWorld !! "k" = Some liveDoc /\
  In firstPatch (patches liveDoc) /\
  isGreaterVersion (patch_version firstPatch) {| major := 1000; minor := 0 |} = true /\
  poll ctx0 earlySubscription oneSecond [(10%Z, ("k", nextPatch))] liveWorld
    = (Ok [("k", [firstPatch])], liveWorld).
Proof.
  split; [reflexivity|]. split; [now left|]. split; [reflexivity|].
  split; [now left|]. split; [reflexivity|].
  exact (proj1 (poll_scan_comes_first ctx0 earlySubscription oneSecond
                  [(10%Z, ("k", nextPatch))] liveWorld "k" {| major := 1000; minor := 0 |}
                  liveDoc firstPatch eq_refl (or_introl eq_refl) eq_refl
                  (or_introl eq_refl) eq_refl)).
Defined.

Lemma poll_returns_first_live_patch_witness :
  io_fault liveWorld = None /\
  Map_of subscription !! "k" = Some {| major := 1000; minor := 1 |} /\
  isGreaterVersion (patch_version nextPatch) {| major := 1000; minor := 1 |} = true /\
  (20 < blockTime oneSecond)%Z /\
  poll ctx0 subscription oneSecond
    ([(10%Z, ("z", otherPatch))] ++ (20%Z, ("k", nextPatch)) :: [(30%Z, ("k", otherPatch))])
    liveWorld
  = (Ok [("k", [nextPatch])], liveWorld).
Proof.
  assert (Hscan : forall k' v' d' p', In (k', v') subscription -> db liveWorld !! k' = Some d' ->
                    In p' (patches d') -> isGreaterVersion (patch_version p') v' = false).
  { intros k v d p [Hkv|[]] Hd Hp. inversion Hkv; subst k v.
    rewrite liveWorld_lookup in Hd. inversion Hd; subst d.
    destruct Hp as [<-|[]]. reflexivity. }
  assert (Hbefore : forall t' k' p' v', In (t', (k', p')) [(10%Z, ("z", otherPatch))] ->
                      Map_of subscription !! k' = Some v' ->
                      isGreaterVersion (patch_version p') v' = false).
  { intros t k p v [He|[]] Hk. inversion He; subst t k p.
    vm_compute in Hk. discriminate. }
  assert (Ht : (20 < blockTime oneSecond)%Z) by (vm_compute; reflexivity).
  split; [reflexivity|]. split; [reflexivity|]. split; [reflexivity|]. split; [exact Ht|].
  exact (poll_returns_first_live_patch ctx0 subscription oneSecond
           [(10%Z, ("z", otherPatch))] [(30%Z, ("k", otherPatch))] 20%Z "k" nextPatch
           {| major := 1000; minor := 1 |} liveWorld eq_refl Hscan Hbefore eq_refl eq_refl Ht).
Defined.


Lemma comparison_needs_same_type_witness :
  typeof (path ["value"; "age"] (doc_object withAge)) <> typeof (JStr "5") /\
  match_ noCoercion noRegexp withAge (FGt ["value"; "age"] (JStr "5")) = Ok (Some false).
Proof.
  assert (H : typeof (path ["value"; "age"] (doc_object withAge)) <> typeof (JStr "5"))
    by discriminate.
  split; [exact H|].
  exact (proj1 (comparison_needs_same_type noCoercion noRegexp withAge ["value"; "age"]
                  (JStr "5") H)).
Defined.

Lemma find_returns_matching_documents_witness :
  fst (find noCoercion noRegexp ctx0 (byAge ASC) shelfWorld) = Ok [withAge; withoutAge] /\
  In withoutAge [withAge; withoutAge] /\
  exists d, db shelfWorld !! key withoutAge = Some d /\ doc_value withoutAge = value d /\
            is_undefined (value d) = false /\
            wrappedMatch noCoercion noRegexp withoutAge (filter (byAge ASC)) = Ok true.
Proof.
  split; [reflexivity|]. split; [right; now left|].
  exact (find_returns_matching_documents noCoercion noRegexp ctx0 (byAge ASC) shelfWorld
           [withAge; withoutAge] withoutAge eq_refl (or_intror (or_introl eq_refl))).
Defined.

Lemma find_returns_every_match_witness :
  skip (byAge DESC) = None /\
  limit (byAge DESC) = None /\
  fst (find noCoercion noRegexp ctx0 (byAge DESC) shelfWorld) = Ok [withAge; withoutAge] /\
  In {| key := "a"; doc_value := JObj 1 [("age", JNum 5)] |} [withAge; withoutAge].
Proof.
  split; [reflexivity|]. split; [reflexivity|]. split; [reflexivity|].
  exact (find_returns_every_match noCoercion noRegexp ctx0 (byAge DESC) shelfWorld
           [withAge; withoutAge] "a"
           {| version := {| major := 1000; minor := 1 |};
              value := JObj 1 [("age", JNum 5)];
              patches := [{| patch_version := {| major := 1000; minor := 1 |};
                             ops := [OpReplace "" (root (JObj 1 [("age", JNum 5)]))];
                             patch_options := [] |}];
              updatedAt := 1001 |}
           eq_refl eq_refl eq_refl eq_refl eq_refl eq_refl).
Defined.

Lemma find_respects_limit_witness :
  (0 <= 1)%Z /\
  fst (find noCoercion noRegexp ctx0
         {| filter := FAnd []; limit := Some 1%Z; skip := Some 1%Z; orderBy := None |}
         shelfWorld) = Ok [withoutAge] /\
  (length [withoutAge] <= Z.to_nat 1)%nat.
Proof.
  assert (H : (0 <= 1)%Z) by lia.
  split; [exact H|]. split; [reflexivity|].
  exact (find_respects_limit noCoercion noRegexp ctx0
           {| filter := FAnd []; limit := Some 1%Z; skip := Some 1%Z; orderBy := None |}
           shelfWorld [withoutAge] 1%Z eq_refl H eq_refl).
Defined.

Lemma storage_fault_propagates_witness :
  io_fault brokenWorld = Some "IO error" /\
  checkValue (JNum 7) = Ok tt /\
  setIfVersion sampleClock replaceDiff ctx0 "k" {| major := 1000; minor := 1 |}
    (JNum 7) None brokenWorld
  = (Err (WrappedError "[dbg] IO error" "dbg"), brokenWorld).
Proof.
  split; [reflexivity|]. split; [reflexivity|].
  exact (proj1 (proj2 (proj2 (proj2 (proj2
           (storage_fault_propagates sampleClock replaceDiff ctx0 "k"
              {| major := 1000; minor := 1 |} (JNum 7) None brokenWorld
              "IO error" eq_refl eq_refl)))))).
Defined.

Lemma construct_keeps_live_documents_witness :
  isLiveValue (db liveWorld !! "k") = true /\
  db (construct sampleClock replaceDiff [("k", JNum 7); ("z", JNum 8)] liveWorld) !! "k"
    = Some liveDoc.
Proof.
  split; [reflexivity|].
  exact (construct_keeps_live_documents sampleClock replaceDiff
           [("k", JNum 7); ("z", JNum 8)] liveWorld "k" eq_refl).
Defined.
